(** * Intelligent support ticket assignment: a shallow embedding

    This development embeds [ticket_assignment_system.py] (class
    [IntelligentTicketAssignmentSystem] and [main]) and proves properties
    of the allocation pipeline: keyword analysis of ticket text, the
    five-component agent score, the ordering of the ticket queue and the
    greedy assignment loop with its mutable per-agent load counters.

    Modelling conventions.
    - A Python [str] is a [string]; its characters are the code points
      below 256, and [lower] is Python's [str.lower] on that range.
    - A Python [dict] is a [gmap]; a dict literal whose iteration order the
      code observes ([skill_keywords]) is kept as an association list.
    - The numeric JSON fields [skills[...]], [experience_level] and
      [current_load] are Python ints ([Z]).  A score is a Python number,
      an int or a float; floats are the binary64 values of IEEE 754, as
      specified by [SpecFloat], and every float operation rounds as
      CPython's does (module [PyNum]).
    - A raised exception is the [Raise] result of the [result] monad.
    - [list.sort] is stable where [<] orders the keys.  Where it does not
      (a NaN among float keys) the arrangement it returns is an internal
      matter of CPython's algorithm: it is a parameter, the class
      [ListSort], of which only the documented guarantees are used.
    - [list(set(xs))] iterates the set in CPython's hash order, which
      changes from process to process; that order is an instance of the
      class [SetOrder], over which every statement is quantified. *)

From Stdlib Require Import QArith.
From Stdlib Require Floats.SpecFloat.
From stdpp Require Import gmap strings list fin_maps pretty sorting.
From Stdlib Require Import Ascii.
From Stdlib Require String.

Local Open Scope Z_scope.

(** ** Python strings *)

Module PyStr.

(** [str.lower] on one character: A-Z and the Latin-1 capitals
    (U+00C0..U+00DE without the multiplication sign U+00D7) move up by
    32; every other code point below 256 is its own lower case. *)
Definition lower_char (c : ascii) : ascii :=
  let n := N_of_ascii c in
  if ((65 <=? n) && (n <=? 90))%N
     || ((192 <=? n) && (n <=? 222) && negb (n =? 215))%N
  then ascii_of_N (n + 32) else c.

Fixpoint lower (s : string) : string :=
  match s with
  | EmptyString => EmptyString
  | String c s' => String (lower_char c) (lower s')
  end.

(** [needle in text]: [needle] starts at some position of [text]. *)
Fixpoint contains (needle text : string) : bool :=
  String.prefix needle text
  || match text with
     | EmptyString => false
     | String _ text' => contains needle text'
     end.

(** The mathematical reading of "occurs as a substring". *)
Definition substring_of (needle text : string) : Prop :=
  ∃ before after, text = before +:+ needle +:+ after.

(** [sep.join(parts)] *)
Fixpoint join (sep : string) (parts : list string) : string :=
  match parts with
  | [] => ""
  | [p] => p
  | p :: ps => p +:+ sep +:+ join sep ps
  end.

End PyStr.

(** ** Exceptions *)

Inductive exn :=
| IndexError
| KeyError (key : string)
| OverflowError
| ZeroDivisionError.

Inductive result (A : Type) := Ok (a : A) | Raise (e : exn).
Arguments Ok {A} a.
Arguments Raise {A} e.

Global Instance result_bind : MBind result := λ A B k m,
  match m with Ok a => k a | Raise e => Raise e end.
Global Instance result_ret : MRet result := λ A a, Ok a.

(** [for x in xs: acc.append(f(x))] where [f] may raise. *)
Fixpoint for_each {A B} (f : A → result B) (xs : list A) : result (list B) :=
  match xs with
  | [] => Ok []
  | x :: xs' => y ← f x; ys ← for_each f xs'; Ok (y :: ys)
  end.

(** ** Python numbers

    A number of this program is an [int], of any size, or a [float], a
    binary64 value.  Between two ints [+] and [*] are exact.  As soon as a
    float takes part the int operand is converted, and the operation is
    the IEEE 754 one, rounded to nearest, ties to even.  The conversion of
    an int raises [OverflowError] when the nearest float is not finite;
    float [+] and [*] never raise, they return an infinity or NaN.  [/]
    between two ints returns the float nearest to the quotient, rounded
    once, and raises [OverflowError] when that float is not finite; [/]
    by zero raises [ZeroDivisionError].  Comparisons are by value, also
    between an int and a float, and false as soon as an operand is
    NaN. *)
Module PyNum.
Import SpecFloat.

Definition prec : Z := 53.
Definition emax : Z := 1024.

Inductive t := Int (z : Z) | Float (x : spec_float).

(** The float nearest to [m * 2^e]; a float literal such as [1.5] is
    [dyadic 3 (-1)]. *)
Definition dyadic (m e : Z) : spec_float := binary_normalize prec emax m e false.

Definition is_infinity (x : spec_float) : bool :=
  match x with S754_infinity _ => true | _ => false end.

Definition is_zero (x : spec_float) : bool :=
  match x with S754_zero _ => true | _ => false end.

(** [math.isfinite(x)], and the sign bit of [x]. *)
Definition is_finite (x : spec_float) : bool :=
  match x with S754_zero _ | S754_finite _ _ _ => true | _ => false end.

Definition is_negative (x : spec_float) : bool :=
  match x with
  | S754_zero s | S754_infinity s | S754_finite s _ _ => s
  | S754_nan => false
  end.

(** [float(z)] *)
Definition float_of_int (z : Z) : result spec_float :=
  let x := dyadic z 0 in
  if is_infinity x then Raise OverflowError else Ok x.

Definition to_float (a : t) : result spec_float :=
  match a with Int z => float_of_int z | Float x => Ok x end.

(** [a + b] *)
Definition add (a b : t) : result t :=
  match a, b with
  | Int x, Int y => Ok (Int (x + y))
  | _, _ => x ← to_float a; y ← to_float b; Ok (Float (SFadd prec emax x y))
  end.

(** [a * b] *)
Definition mul (a b : t) : result t :=
  match a, b with
  | Int x, Int y => Ok (Int (x * y))
  | _, _ => x ← to_float a; y ← to_float b; Ok (Float (SFmul prec emax x y))
  end.

(** The int [z] as the operand of a division, not rounded: [SFdiv] rounds
    the exact quotient of its operands, whatever the size of their
    mantissas. *)
Definition unrounded (z : Z) : spec_float :=
  match z with
  | Z0 => S754_zero false
  | Zpos m => S754_finite false m 0
  | Zneg m => S754_finite true m 0
  end.

(** [a / b] *)
Definition truediv (a b : t) : result t :=
  match a, b with
  | Int x, Int y =>
      if y =? 0 then Raise ZeroDivisionError
      else
        let q := SFdiv prec emax (unrounded x) (unrounded y) in
        if is_infinity q then Raise OverflowError else Ok (Float q)
  | _, _ =>
      x ← to_float a; y ← to_float b;
      if is_zero y then Raise ZeroDivisionError
      else Ok (Float (SFdiv prec emax x y))
  end.

(** The value of a number: a rational or an infinity, nothing for NaN. *)
Inductive value := NegInf | Finite (q : Q) | PosInf.

Definition float_value (x : spec_float) : option value :=
  match x with
  | S754_zero _ => Some (Finite 0)
  | S754_infinity s => Some (if s then NegInf else PosInf)
  | S754_nan => None
  | S754_finite s m e =>
      let n := if s then Zneg m else Zpos m in
      Some (Finite match e with
                   | Z0 => inject_Z n
                   | Zpos p => inject_Z (n * Z.pow_pos 2 p)
                   | Zneg p => Qmake n (Pos.pow 2 p)
                   end)
  end.

Definition value_of (a : t) : option value :=
  match a with
  | Int z => Some (Finite (inject_Z z))
  | Float x => float_value x
  end.

Definition is_nan (a : t) : bool :=
  match value_of a with None => true | Some _ => false end.

Definition Qlt_bool (a b : Q) : bool := negb (Qle_bool b a).

Definition value_lt (u v : value) : bool :=
  match u, v with
  | NegInf, NegInf => false
  | NegInf, _ => true
  | Finite _, NegInf => false
  | Finite p, Finite q => Qlt_bool p q
  | Finite _, PosInf => true
  | PosInf, _ => false
  end.

(** [a < b] and [a <= b] *)
Definition lt (a b : t) : bool :=
  match value_of a, value_of b with
  | Some u, Some v => value_lt u v
  | _, _ => false
  end.

Definition le (a b : t) : bool :=
  match value_of a, value_of b with
  | Some u, Some v => negb (value_lt v u)
  | _, _ => false
  end.

(** [min(a, b)] keeps [a] unless [b < a]. *)
Definition min (a b : t) : t := if lt b a then b else a.

End PyNum.

(** ** [list.sort]

    [list.sort(key=...)] is stable: it returns the one ordering of the list
    that is sorted by key and keeps elements with equal keys in their
    original order; [reverse=True] sorts by descending key and keeps that
    guarantee.  [sort_by precedes] computes this ordering by insertion,
    [precedes y x] saying that [y]'s key is strictly before [x]'s.

    That description supposes that [<] orders the keys.  Integers, strings
    and tuples of them always are; floats are unless one of them is NaN,
    which [<] relates to nothing.  On such keys [list.sort] still returns
    a rearrangement of the list, one that depends on the run detection and
    the merges of CPython's algorithm. *)

Section Sort.
Context {A : Type} (precedes : A → A → bool).

Fixpoint insert_by (x : A) (l : list A) : list A :=
  match l with
  | [] => [x]
  | y :: l' => if precedes y x then y :: insert_by x l' else x :: y :: l'
  end.

Fixpoint sort_by (l : list A) : list A :=
  match l with
  | [] => []
  | x :: l' => insert_by x (sort_by l')
  end.

(** On the elements of [l], [precedes] compares as a strict weak order
    does: it is asymmetric, and "not before" is transitive. *)
Definition strict_weak_on (l : list A) : Prop :=
  (∀ x y, x ∈ l → y ∈ l → precedes x y = true → precedes y x = false)
  ∧ (∀ x y z, x ∈ l → y ∈ l → z ∈ l →
       precedes y x = false → precedes z y = false → precedes z x = false).
End Sort.

(** [list.sort] on keys of any kind: a rearrangement of the list, the
    stable sorted one when the keys are ordered. *)
Class ListSort := {
  list_sort : ∀ {A : Type}, (A → A → bool) → list A → list A;
  list_sort_Permutation :
    ∀ {A : Type} (precedes : A → A → bool) (l : list A),
      list_sort precedes l ≡ₚ l;
  list_sort_ordered :
    ∀ {A : Type} (precedes : A → A → bool) (l : list A),
      strict_weak_on precedes l → list_sort precedes l = sort_by precedes l
}.

(** ** [list(set(xs))] *)

Class SetOrder := {
  list_of_set : list string → list string;
  list_of_set_NoDup : ∀ xs, NoDup (list_of_set xs);
  list_of_set_elem : ∀ xs x, x ∈ list_of_set xs ↔ x ∈ xs
}.

(** ** The system's constant tables ([__init__]) *)

Definition skill_keywords : list (string * list string) := [
  ("VPN_Troubleshooting", ["vpn"; "virtual private network"; "tunnel"; "authentication error"]);
  ("Networking", ["network"; "connectivity"; "ping"; "switch"; "router"; "outage"; "dns"]);
  ("Hardware_Diagnostics", ["hardware"; "laptop"; "desktop"; "boot"; "bios"; "fan"; "overheating"; "port"; "usb"; "monitor"; "projector"]);
  ("Laptop_Repair", ["laptop"; "battery"; "charging"; "screen"; "keyboard"; "fan"]);
  ("Microsoft_365", ["outlook"; "microsoft 365"; "m365"; "email"; "onedrive"; "teams"]);
  ("Active_Directory", ["active directory"; "ad"; "account"; "user account"; "domain"; "login"; "password reset"; "sso"; "saml"]);
  ("Database_SQL", ["database"; "sql server"; "query"; "backup"; "connection timeout"]);
  ("Network_Security", ["security"; "firewall"; "intrusion"; "breach"; "malicious"]);
  ("Endpoint_Security", ["malware"; "antivirus"; "trojan"; "phishing"; "security"]);
  ("Cloud_Azure", ["azure"; "app service"; "cloud"]);
  ("Cloud_AWS", ["aws"; "cloud"]);
  ("Printer_Troubleshooting", ["printer"; "printing"]);
  ("SharePoint_Online", ["sharepoint"; "collaboration"; "site"]);
  ("Voice_VoIP", ["voip"; "phone"; "call"]);
  ("Web_Server_Apache_Nginx", ["website"; "web server"; "502"; "500"; "404"]);
  ("Windows_OS", ["windows"; "desktop"; "pc"]);
  ("Mac_OS", ["mac"; "macos"; "macbook"]);
  ("Linux_Administration", ["linux"; "ubuntu"; "samba"; "permission"]);
  ("DevOps_CI_CD", ["jenkins"; "ci/cd"]);
  ("Virtualization_VMware", ["vm"; "virtual machine"; "vmware"]);
  ("API_Troubleshooting", ["api"]);
  ("DNS_Configuration", ["dns"]);
  ("SSL_Certificates", ["ssl"; "certificate"]);
  ("Phishing_Analysis", ["phishing"]);
  ("SIEM_Logging", ["siem"; "log"]);
  ("Identity_Management", ["identity"; "sso"]);
  ("SaaS_Integrations", ["saas"; "integration"]);
  ("Firewall_Configuration", ["firewall"]);
  ("Switch_Configuration", ["switch"]);
  ("Routing_Protocols", ["routing"]);
  ("Network_Monitoring", ["monitoring"]);
  ("Endpoint_Management", ["endpoint"]);
  ("PowerShell_Scripting", ["powershell"]);
  ("Software_Licensing", ["license"]);
  ("Python_Scripting", ["python"]);
  ("Kubernetes_Docker", ["kubernetes"; "docker"]);
  ("ETL_Processes", ["etl"]);
  ("Data_Warehousing", ["data warehouse"]);
  ("PowerBI_Tableau", ["powerbi"; "tableau"]);
  ("Cisco_IOS", ["cisco"]);
  ("Network_Cabling", ["cable"; "cabling"])
].

Definition priority_keywords : gmap string (list string) := list_to_map [
  ("critical", ["critical"; "business-critical"; "down"; "outage"; "not working"; "failure"; "failed"; "crash"; "urgent"; "immediate"]);
  ("high", ["high"; "security"; "breach"; "malware"; "slow"; "performance"; "locked"; "cannot"; "unable"; "broken"]);
  ("medium", ["medium"; "sync"; "access"; "permission"; "configuration"]);
  ("low", ["request"; "setup"; "new user"; "license"; "standard"; "routine"])
].

(** ** Text analysis *)

(** The loop [for keyword in keywords: if keyword in text_lower: <leave>]:
    [true] when the body's exit ([break] or [return]) is taken. *)
Fixpoint keyword_hit (keywords : list string) (text_lower : string) : bool :=
  match keywords with
  | [] => false
  | keyword :: rest =>
      if PyStr.contains keyword text_lower then true
      else keyword_hit rest text_lower
  end.

(** [extract_required_skills] over an arbitrary keyword table. *)
Definition matched_skills (table : list (string * list string))
    (text_lower : string) : list string :=
  foldl (fun relevant_skills entry =>
           if keyword_hit entry.2 text_lower
           then relevant_skills ++ [entry.1]
           else relevant_skills)
        [] table.

Definition extract_skills_with `{SetOrder}
    (table : list (string * list string)) (text : string) : list string :=
  let text_lower := PyStr.lower text in
  list_of_set (matched_skills table text_lower).

Definition extract_required_skills `{SetOrder} (text : string) : list string :=
  extract_skills_with skill_keywords text.

Definition calculate_priority_score (text : string) : Z :=
  let text_lower := PyStr.lower text in
  if keyword_hit (priority_keywords !!! "critical") text_lower then 10
  else if keyword_hit (priority_keywords !!! "high") text_lower then 8
  else if keyword_hit (priority_keywords !!! "medium") text_lower then 5
  else if keyword_hit (priority_keywords !!! "low") text_lower then 2
  else 6.

Example priority_scenario :
  calculate_priority_score "VPN authentication error, urgent, business down" = 10.
Proof. vm_compute. reflexivity. Qed.

(** ** Data model *)

Record Agent := {
  agent_id : string;
  name : string;
  skills : gmap string Z;
  experience_level : Z;
  availability_status : string;
  current_load : Z
}.

Record Ticket := {
  ticket_id : string;
  title : string;
  description : string;
  creation_timestamp : string
}.

(** The dict returned by [calculate_agent_score].  The workload and the
    availability components are ints on every path; the others are ints
    or floats. *)
Record ScoreInfo := {
  total_score : PyNum.t;
  skill_score : PyNum.t;
  experience_score : PyNum.t;
  workload_score : Z;
  availability_score : Z;
  priority_bonus : PyNum.t
}.

(** An entry of [tickets_with_metadata]. *)
Record TicketInfo := {
  ticket : Ticket;
  priority : Z;
  required_skills : list string
}.

Module Assignment.
Record t := {
  ticket_id : string;
  title : string;
  assigned_agent_id : string;
  rationale : string
}.
End Assignment.

(** ** [calculate_agent_score] *)

(** [max(a, b)] on ints keeps [a] unless [b > a]. *)
Definition py_max (a b : Z) : Z := if a <? b then b else a.

(** [sum(xs)] of ints *)
Definition py_sum (xs : list Z) : Z := foldl Z.add 0 xs.

Definition max_reasonable_load : Z := 5.

Definition calculate_agent_score (agent : Agent) (required_skills : list string)
    (priority_score : Z) (current_load : Z) : result ScoreInfo :=
  let skill_scores :=
    foldl (fun skill_scores skill =>
             match skills agent !! skill with
             | Some proficiency => skill_scores ++ [proficiency]
             | None => skill_scores ++ [0]
             end) [] required_skills in
  (* sum(skill_scores) / len(skill_scores) if skill_scores else 0 *)
  avg_skill_score ←
    match skill_scores with
    | [] => Ok (PyNum.Int 0)
    | _ => PyNum.truediv (PyNum.Int (py_sum skill_scores))
                         (PyNum.Int (Z.of_nat (length skill_scores)))
    end;
  skill_match_score ← PyNum.mul avg_skill_score (PyNum.Int 10);
  (* min(agent['experience_level'] * 1.5, 20) *)
  scaled_experience ←
    PyNum.mul (PyNum.Int (experience_level agent))
              (PyNum.Float (PyNum.dyadic 3 (-1)));
  let experience_score := PyNum.min scaled_experience (PyNum.Int 20) in
  let workload_score := py_max 0 ((max_reasonable_load - current_load) * 6) in
  let availability_score :=
    if decide (availability_status agent = "Available") then 10 else 0 in
  (* priority_score * 0.5 if priority_score >= 8 else 0 *)
  priority_bonus ←
    (if 8 <=? priority_score
     then PyNum.mul (PyNum.Int priority_score)
                    (PyNum.Float (PyNum.dyadic 1 (-1)))
     else Ok (PyNum.Int 0));
  (* the sum, from left to right *)
  total_score ← PyNum.add skill_match_score experience_score;
  total_score ← PyNum.add total_score (PyNum.Int workload_score);
  total_score ← PyNum.add total_score (PyNum.Int availability_score);
  total_score ← PyNum.add total_score priority_bonus;
  Ok {| total_score := total_score;
        skill_score := skill_match_score;
        experience_score := experience_score;
        workload_score := workload_score;
        availability_score := availability_score;
        priority_bonus := priority_bonus |}.

(** ** [create_assignment_rationale] *)

Definition create_assignment_rationale (agent : Agent)
    (required_skills : list string) (score_info : ScoreInfo)
    (priority : Z) : string :=
  let relevant_skills :=
    foldl (fun relevant_skills skill =>
             match skills agent !! skill with
             | Some proficiency =>
                 relevant_skills
                 ++ ["'" +:+ skill +:+ "' (" +:+ pretty proficiency +:+ ")"]
             | None => relevant_skills
             end) [] required_skills in
  let skill_text := PyStr.join ", " (take 3 relevant_skills) in
  let rationale_parts := [] in
  let rationale_parts :=
    match relevant_skills with
    | _ :: _ =>
        rationale_parts
        ++ ["Assigned to " +:+ name agent +:+ " (" +:+ agent_id agent +:+ ") "
            +:+ "based on expertise in " +:+ skill_text]
    | [] =>
        rationale_parts
        ++ ["Assigned to " +:+ name agent +:+ " (" +:+ agent_id agent +:+ ") "
            +:+ "based on experience level ("
            +:+ pretty (experience_level agent) +:+ ")"]
    end in
  let rationale_parts :=
    if 15 <? workload_score score_info
    then rationale_parts ++ ["and lower current workload"]
    else rationale_parts in
  let rationale_parts :=
    if 8 <=? priority
    then rationale_parts ++ ["High priority ticket requiring immediate attention"]
    else rationale_parts in
  PyStr.join ". " rationale_parts +:+ ".".

(** ** [assign_tickets] *)

(** [d[k]] raises [KeyError] on an absent key; [l[0]] raises [IndexError]
    on an empty list. *)
Definition getitem (d : gmap string Z) (k : string) : result Z :=
  match d !! k with Some v => Ok v | None => Raise (KeyError k) end.

Definition first_item {A} (l : list A) : result A :=
  match l with x :: _ => Ok x | [] => Raise IndexError end.

(** Tuple comparison [(a1, b1) < (a2, b2)] of the ticket sort keys. *)
Definition key_lt (k1 k2 : Z * string) : bool :=
  (k1.1 <? k2.1) || ((k1.1 =? k2.1) && String.ltb k1.2 k2.2).

Definition ticket_key (x : TicketInfo) : Z * string :=
  (- priority x, creation_timestamp (ticket x)).

Definition ticket_precedes (y x : TicketInfo) : bool :=
  key_lt (ticket_key y) (ticket_key x).

(** [reverse=True]: the larger total goes first. *)
Definition score_precedes (y x : Agent * ScoreInfo) : bool :=
  PyNum.lt (total_score x.2) (total_score y.2).

(** [{agent['agent_id']: agent['current_load'] for agent in agents_data}] *)
Definition initial_loads (agents_data : list Agent) : gmap string Z :=
  foldl (fun d agent => <[agent_id agent := current_load agent]> d)
        ∅ agents_data.

Section Engine.
Context `{SetOrder} `{ListSort}.

Definition annotate (ticket : Ticket) : TicketInfo :=
  let text := title ticket +:+ " " +:+ description ticket in
  let priority := calculate_priority_score text in
  let required_skills := extract_required_skills text in
  {| ticket := ticket; priority := priority;
     required_skills := required_skills |}.

Definition score_agents (agents_data : list Agent) (agent_loads : gmap string Z)
    (required_skills : list string) (priority : Z)
    : result (list (Agent * ScoreInfo)) :=
  for_each (fun agent =>
              current_load ← getitem agent_loads (agent_id agent);
              score_info ← calculate_agent_score agent required_skills
                             priority current_load;
              Ok (agent, score_info))
           agents_data.

(** One iteration of [for ticket_info in tickets_with_metadata], on the
    loop's state: the load counters and the assignments made so far. *)
Definition assign_one (agents_data : list Agent)
    (state : gmap string Z * list Assignment.t) (ticket_info : TicketInfo)
    : result (gmap string Z * list Assignment.t) :=
  let '(agent_loads, assignments) := state in
  let ticket := ticket ticket_info in
  let required_skills := required_skills ticket_info in
  let priority := priority ticket_info in
  agent_scores ← score_agents agents_data agent_loads required_skills priority;
  let agent_scores := list_sort score_precedes agent_scores in
  best_match ← first_item agent_scores;
  let best_agent := best_match.1 in
  let best_score := best_match.2 in
  load ← getitem agent_loads (agent_id best_agent);
  let agent_loads := <[agent_id best_agent := load + 1]> agent_loads in
  let assignment :=
    {| Assignment.ticket_id := ticket_id ticket;
       Assignment.title := title ticket;
       Assignment.assigned_agent_id := agent_id best_agent;
       Assignment.rationale :=
         create_assignment_rationale best_agent required_skills
           best_score priority |} in
  Ok (agent_loads, assignments ++ [assignment]).

Fixpoint assign_loop (agents_data : list Agent)
    (state : gmap string Z * list Assignment.t) (queue : list TicketInfo)
    : result (gmap string Z * list Assignment.t) :=
  match queue with
  | [] => Ok state
  | ticket_info :: queue' =>
      state' ← assign_one agents_data state ticket_info;
      assign_loop agents_data state' queue'
  end.

(** The processing queue: every ticket annotated, then sorted. *)
Definition ticket_queue (tickets_data : list Ticket) : list TicketInfo :=
  let tickets_with_metadata :=
    foldl (fun acc ticket => acc ++ [annotate ticket]) [] tickets_data in
  sort_by ticket_precedes tickets_with_metadata.

(** [assign_tickets] up to its [return], with the final load counters. *)
Definition run_assignment (agents_data : list Agent)
    (tickets_data : list Ticket)
    : result (gmap string Z * list Assignment.t) :=
  let agent_loads := initial_loads agents_data in
  assign_loop agents_data (agent_loads, []) (ticket_queue tickets_data).

Definition assign_tickets (agents_data : list Agent)
    (tickets_data : list Ticket) : result (list Assignment.t) :=
  final ← run_assignment agents_data tickets_data;
  Ok final.2.

(** ** [main]

    [dataset] is the parsed content of [dataset.json], [None] when the
    file is missing.  The outcome records what happened to
    [output_result.json]: [main] opens it only after [assign_tickets] has
    returned.  The console summary printed afterwards is left out. *)
Inductive outcome :=
| Aborted
| Crashed (e : exn)
| Saved (sample_output : list Assignment.t).

Definition main (dataset : option (list Agent * list Ticket)) : outcome :=
  match dataset with
  | None => Aborted
  | Some (agents, tickets) =>
      match assign_tickets agents tickets with
      | Raise e => Crashed e
      | Ok assignments => Saved assignments
      end
  end.

Definition written (o : outcome) : option (list Assignment.t) :=
  match o with Saved out => Some out | _ => None end.
End Engine.

(** ** [main]: the assignment distribution

    After it has written the result, [main] counts the assignments per
    agent id and prints one line per id, in ascending order of the items,
    with the name of the first agent of the roster that has the id. *)

(** [agent_assignment_counts] after the counting loop. *)
Definition agent_assignment_counts (assignments : list Assignment.t)
    : gmap string Z :=
  foldl (fun counts assignment =>
           let agent_id := Assignment.assigned_agent_id assignment in
           <[agent_id := default 0 (counts !! agent_id) + 1]> counts)
        ∅ assignments.

(** Tuple comparison [(id1, n1) < (id2, n2)] of the dict's items. *)
Definition item_lt (x y : string * Z) : bool :=
  String.ltb x.1 y.1 || (String.eqb x.1 y.1 && (x.2 <? y.2)).

(** [sorted(agent_assignment_counts.items())].  The items of a dict have
    distinct keys, so their sorted arrangement is the same from whatever
    order the dict yields them. *)
Definition sorted_items (counts : gmap string Z) : list (string * Z) :=
  sort_by item_lt (map_to_list counts).

(** [next(agent['name'] for agent in agents if agent['agent_id'] == id)]:
    [None] stands for the [StopIteration] of an exhausted generator. *)
Definition next_agent_name (agents_data : list Agent) (id : string)
    : option string :=
  name <$> head (filter (λ agent, agent_id agent = id) agents_data).

(** The lines printed under "Assignment Distribution:", [None] when a
    [next] raises. *)
Definition distribution_lines (agents_data : list Agent)
    (assignments : list Assignment.t) : option (list string) :=
  mapM (λ item : string * Z,
          agent_name ← next_agent_name agents_data item.1;
          Some ("  " +:+ item.1 +:+ " (" +:+ agent_name +:+ "): "
                +:+ pretty item.2 +:+ " tickets"))
       (sorted_items (agent_assignment_counts assignments)).

(** Two iteration orders of a set: the order of the deduplicated list, and
    its reverse. *)
Program Instance first_seen_order : SetOrder :=
  {| list_of_set xs := remove_dups xs |}.
Next Obligation. intros xs. apply NoDup_remove_dups. Qed.
Next Obligation. intros xs x. apply elem_of_remove_dups. Qed.


(** An instance of [ListSort], for the runs computed below, in which no
    key is NaN: stable insertion on every list. *)
Program Instance insertion_sort : ListSort :=
  {| list_sort A precedes l := sort_by precedes l |}.
Next Obligation.
  intros A precedes l. induction l as [|x l IH]; simpl; [done|].
  rewrite <- IH at 2. generalize (sort_by precedes l). clear IH l.
  intros l. induction l as [|y l IH]; simpl; [done|].
  destruct (precedes y x); [|done]. rewrite IH. apply Permutation_swap.
Qed.
Next Obligation. done. Qed.

(** * Vocabulary of the statements *)

(** A trigger phrase of the list [keywords] occurs in [text_lower]. *)
Definition phrase_occurs (keywords : list string) (text_lower : string) : Prop :=
  ∃ keyword, keyword ∈ keywords ∧ PyStr.substring_of keyword text_lower.

(** The five components as the design states them, in the arithmetic of
    Python numbers. *)
Module ScoreSpec.

(** The agent's proficiency for [skill], 0 when the agent lacks it. *)
Definition proficiency (agent : Agent) (skill : string) : Z :=
  default 0 (skills agent !! skill).

(** Average proficiency over the required skills (0 for none), times 10. *)
Definition skill_match (agent : Agent) (required : list string)
    : result PyNum.t :=
  match required with
  | [] => PyNum.mul (PyNum.Int 0) (PyNum.Int 10)
  | _ =>
      average ←
        PyNum.truediv
          (PyNum.Int (foldr Z.add 0%Z (proficiency agent <$> required)))
          (PyNum.Int (Z.of_nat (length required)));
      PyNum.mul average (PyNum.Int 10)
  end.

(** min(experience_level * 1.5, 20): the scaled level where it is at
    most 20, and 20 elsewhere. *)
Definition experience (agent : Agent) : result PyNum.t :=
  scaled ← PyNum.mul (PyNum.Int (experience_level agent))
                     (PyNum.Float (PyNum.dyadic 3 (-1)));
  Ok (if PyNum.le scaled (PyNum.Int 20) then scaled else PyNum.Int 20).

(** max(0, (5 - load) * 6) *)
Definition workload (load : Z) : Z := Z.max 0 ((5 - load) * 6).

Definition availability (agent : Agent) : Z :=
  if String.eqb (availability_status agent) "Available" then 10 else 0.

(** priority_score * 0.5 from 8 upwards *)
Definition bonus (priority_score : Z) : result PyNum.t :=
  if decide (8 ≤ priority_score)
  then PyNum.mul (PyNum.Int priority_score) (PyNum.Float (PyNum.dyadic 1 (-1)))
  else Ok (PyNum.Int 0).

(** The five components added up, from left to right. *)
Definition total (skill experience : PyNum.t) (workload availability : Z)
    (bonus : PyNum.t) : result PyNum.t :=
  foldl (λ sum component, sum ← sum; PyNum.add sum component)
        (Ok skill)
        [experience; PyNum.Int workload; PyNum.Int availability; bonus].

End ScoreSpec.

Section Tied.
Context {A : Type} (precedes : A → A → bool).

(** [y] and [k] are tied: neither strictly precedes the other. *)
Definition tied (k y : A) : bool :=
  negb (precedes k y) && negb (precedes y k).
End Tied.

(** A number that is a float, or an int of magnitude at most [bound]. *)
Definition int_within (bound : Z) (a : PyNum.t) : Prop :=
  match a with PyNum.Int z => Z.abs z ≤ bound | PyNum.Float _ => True end.

(** An agent whose experience level, current load and proficiencies are
    at most [bound] in magnitude. *)
Definition in_range (bound : Z) (agent : Agent) : Prop :=
  Z.abs (experience_level agent) ≤ bound
  ∧ Z.abs (current_load agent) ≤ bound
  ∧ map_Forall (λ _ proficiency, Z.abs proficiency ≤ bound) (skills agent).

(** Every agent of the roster has a load counter. *)
Definition covered (agent_loads : gmap string Z) (agents_data : list Agent) : Prop :=
  ∀ agent, agent ∈ agents_data → is_Some (agent_loads !! agent_id agent).

(** The list [agent_scores] before it is sorted, for a roster in which
    every agent has a counter. *)
Definition scored (agents_data : list Agent) (agent_loads : gmap string Z)
    (required_skills : list string) (priority : Z)
    : result (list (Agent * ScoreInfo)) :=
  for_each (λ agent,
              score_info ← calculate_agent_score agent required_skills priority
                             (agent_loads !!! agent_id agent);
              Ok (agent, score_info))
           agents_data.

(** The same list with every agent scored at the one load [load]. *)
Definition scored_at (load : Z) (agents_data : list Agent)
    (required_skills : list string) (priority : Z)
    : result (list (Agent * ScoreInfo)) :=
  for_each (λ agent,
              score_info ← calculate_agent_score agent required_skills priority
                             load;
              Ok (agent, score_info))
           agents_data.

(** The record appended for [ticket_info] once [best_match] is chosen. *)
Definition assignment_for (ticket_info : TicketInfo)
    (best_match : Agent * ScoreInfo) : Assignment.t :=
  {| Assignment.ticket_id := ticket_id (ticket ticket_info);
     Assignment.title := title (ticket ticket_info);
     Assignment.assigned_agent_id := agent_id best_match.1;
     Assignment.rationale :=
       create_assignment_rationale best_match.1 (required_skills ticket_info)
         best_match.2 (priority ticket_info) |}.

(** Number of assignments of [out] given to the agent [id]. *)
Definition assigned_count (id : string) (out : list Assignment.t) : Z :=
  Z.of_nat (length (filter (λ a, Assignment.assigned_agent_id a = id) out)).

Section States.
Context `{SetOrder} `{ListSort}.

(** The loop's state, counters and assignments made, after its first [k]
    iterations. *)
Definition state_after (agents_data : list Agent) (tickets_data : list Ticket)
    (k : nat) : result (gmap string Z * list Assignment.t) :=
  assign_loop agents_data (initial_loads agents_data, [])
    (take k (ticket_queue tickets_data)).
End States.

(** The entry of the rationale for a skill the agent has. *)
Definition skill_entry (agent : Agent) (skill : string) : string :=
  "'" +:+ skill +:+ "' (" +:+ pretty (ScoreSpec.proficiency agent skill) +:+ ")".



(** ** A small batch, on which the statements below are run *)

Definition demo_agents : list Agent := [
  {| agent_id := "agent_001"; name := "Sarah Chen";
     skills := {[ "Networking" := 9; "VPN_Troubleshooting" := 7 ]};
     experience_level := 7; availability_status := "Available";
     current_load := 2 |};
  {| agent_id := "agent_002"; name := "Alex Rodriguez";
     skills := {[ "Networking" := 9; "VPN_Troubleshooting" := 7 ]};
     experience_level := 7; availability_status := "Available";
     current_load := 2 |}
].

Definition demo_tickets : list Ticket := [
  {| ticket_id := "TKT-1"; title := "Printer setup";
     description := "routine request"; creation_timestamp := "1700000300" |};
  {| ticket_id := "TKT-2"; title := "VPN tunnel";
     description := "network outage, business down";
     creation_timestamp := "1700000200" |};
  {| ticket_id := "TKT-3"; title := "Router crash";
     description := "urgent"; creation_timestamp := "1700000100" |}
].

Definition demo_out : list Assignment.t := [
  {| Assignment.ticket_id := "TKT-3"; Assignment.title := "Router crash";
     Assignment.assigned_agent_id := "agent_001";
     Assignment.rationale :=
       "Assigned to Sarah Chen (agent_001) based on expertise in 'Networking' (9). and lower current workload. High priority ticket requiring immediate attention." |};
  {| Assignment.ticket_id := "TKT-2"; Assignment.title := "VPN tunnel";
     Assignment.assigned_agent_id := "agent_002";
     Assignment.rationale :=
       "Assigned to Alex Rodriguez (agent_002) based on expertise in 'VPN_Troubleshooting' (7), 'Networking' (9). and lower current workload. High priority ticket requiring immediate attention." |};
  {| Assignment.ticket_id := "TKT-1"; Assignment.title := "Printer setup";
     Assignment.assigned_agent_id := "agent_001";
     Assignment.rationale :=
       "Assigned to Sarah Chen (agent_001) based on experience level (7)." |}
].

(** An agent for the examples on single scores. *)
Definition demo_available : Agent :=
  {| agent_id := "agent_001"; name := "Sarah Chen";
     skills := {[ "Networking" := 9 ]}; experience_level := 7;
     availability_status := "Available"; current_load := 2 |}.

(** The two load counters of the batch. *)
Definition demo_loads (load1 load2 : Z) : gmap string Z :=
  {[ "agent_001" := load1; "agent_002" := load2 ]}.

(** Every agent of the roster stands at the reasonable load or above. *)
Definition saturated (agent_loads : gmap string Z) (agents_data : list Agent)
    : Prop :=
  ∀ agent, agent ∈ agents_data →
    ∃ load, agent_loads !! agent_id agent = Some load
            ∧ max_reasonable_load ≤ load.

(** A roster at or above the reasonable load, and two tickets with the
    same analysis. *)
Definition demo_busy_agents : list Agent := [
  {| agent_id := "agent_001"; name := "Sarah Chen";
     skills := {[ "Networking" := 9; "VPN_Troubleshooting" := 7 ]};
     experience_level := 7; availability_status := "Available";
     current_load := 5 |};
  {| agent_id := "agent_002"; name := "Alex Rodriguez";
     skills := {[ "Networking" := 9; "VPN_Troubleshooting" := 7 ]};
     experience_level := 7; availability_status := "Available";
     current_load := 9 |}
].

Definition demo_twin_tickets : list Ticket := [
  {| ticket_id := "TKT-7"; title := "Router crash";
     description := "urgent"; creation_timestamp := "1700000700" |};
  {| ticket_id := "TKT-8"; title := "Router crash again";
     description := "urgent"; creation_timestamp := "1700000800" |}
].

Definition demo_twin_out : list Assignment.t := [
  {| Assignment.ticket_id := "TKT-7"; Assignment.title := "Router crash";
     Assignment.assigned_agent_id := "agent_001";
     Assignment.rationale :=
       "Assigned to Sarah Chen (agent_001) based on expertise in 'Networking' (9). High priority ticket requiring immediate attention." |};
  {| Assignment.ticket_id := "TKT-8"; Assignment.title := "Router crash again";
     Assignment.assigned_agent_id := "agent_001";
     Assignment.rationale :=
       "Assigned to Sarah Chen (agent_001) based on expertise in 'Networking' (9). High priority ticket requiring immediate attention." |}
].

(** Two agents whose totals for a ticket with three required skills are
    both 100/3 in exact arithmetic: 1/3 * 10 + 20 + 10 and
    7/3 * 10 + 0 + 10. *)
Definition demo_close_agents : list Agent := [
  {| agent_id := "agent_005"; name := "Ida";
     skills := {[ "VPN_Troubleshooting" := 1 ]}; experience_level := 14;
     availability_status := "Available"; current_load := 5 |};
  {| agent_id := "agent_006"; name := "Jon";
     skills := {[ "VPN_Troubleshooting" := 7 ]}; experience_level := 0;
     availability_status := "Available"; current_load := 5 |}
].

Definition demo_close_ticket : Ticket :=
  {| ticket_id := "TKT-9"; title := "vpn printer"; description := "azure";
     creation_timestamp := "1700000900" |}.

(** Every phrase of [narrow] contains a phrase of [broad]. *)
Definition phrases_covered (narrow broad : list string) : bool :=
  forallb (λ phrase, existsb (λ inner, PyStr.contains inner phrase) broad)
          narrow.

(** In [skill_keywords], every phrase of the tag [narrow] contains a
    phrase of the tag [broad]. *)
Definition tag_covered (narrow broad : string) : bool :=
  forallb (λ entry : string * list string,
             negb (String.eqb entry.1 narrow)
             || existsb (λ other : string * list string,
                           String.eqb other.1 broad
                           && phrases_covered entry.2 other.2)
                        skill_keywords)
          skill_keywords.

(** * Properties *)

(** ** Strings *)

Module PyStrFacts.
Import PyStr.

Lemma app_cons c s t : String c s +:+ t = String c (s +:+ t).
Proof. reflexivity. Qed.

Lemma app_empty t : "" +:+ t = t.
Proof. reflexivity. Qed.

Lemma prefix_spec needle text :
  String.prefix needle text = true ↔ ∃ after, text = needle +:+ after.
Proof.
  revert text. induction needle as [|c needle IH]; intros text; simpl.
  - split; [intros _; by exists text | by destruct text].
  - destruct text as [|d text].
    + split; [done | intros [after Hafter]; discriminate].
    + simpl. destruct (Ascii.ascii_dec c d) as [->|Hne].
      * rewrite IH. split; intros [after Hafter]; exists after.
        -- by rewrite app_cons, <- Hafter.
        -- rewrite app_cons in Hafter. congruence.
      * split; [done | intros [after Hafter]].
        rewrite app_cons in Hafter. congruence.
Qed.

Lemma contains_empty needle :
  contains needle "" = String.prefix needle "" || false.
Proof. reflexivity. Qed.

Lemma contains_cons needle c text :
  contains needle (String c text)
  = String.prefix needle (String c text) || contains needle text.
Proof. reflexivity. Qed.

(** [needle in text] decides "occurs as a substring". *)
Lemma contains_spec needle text :
  contains needle text = true ↔ substring_of needle text.
Proof.
  unfold substring_of. split.
  - induction text as [|c text IH].
    + rewrite contains_empty, orb_true_iff. intros [Hp|?]; [|done].
      apply prefix_spec in Hp as [after ->]. by exists "", after.
    + rewrite contains_cons, orb_true_iff. intros [Hp|Hc].
      * apply prefix_spec in Hp as [after ->]. by exists "", after.
      * destruct (IH Hc) as (before & after & ->).
        by exists (String c before), after.
  - intros (before & after & ->).
    induction before as [|c before IH].
    + rewrite app_empty.
      assert (String.prefix needle (needle +:+ after) = true) as Hp
        by (apply prefix_spec; by exists after).
      destruct (needle +:+ after);
        [rewrite contains_empty | rewrite contains_cons]; by rewrite Hp.
    + rewrite app_cons, contains_cons, IH. apply orb_true_r.
Qed.

End PyStrFacts.

Lemma keyword_hit_spec keywords text_lower :
  keyword_hit keywords text_lower = true ↔ phrase_occurs keywords text_lower.
Proof.
  unfold phrase_occurs. induction keywords as [|kw rest IH]; simpl.
  - split; [done | intros (? & []%elem_of_nil & _)].
  - destruct (PyStr.contains kw text_lower) eqn:Hc.
    + split; [intros _ | done]. exists kw. split; [left |].
      by apply PyStrFacts.contains_spec.
    + rewrite IH. split.
      * intros (k & ? & ?). exists k. split; [by right | done].
      * intros (k & [->|?]%elem_of_cons & Hk); [|by exists k].
        apply PyStrFacts.contains_spec in Hk. congruence.
Qed.

Lemma keyword_hit_false keywords text_lower :
  keyword_hit keywords text_lower = false ↔ ¬ phrase_occurs keywords text_lower.
Proof. rewrite <- keyword_hit_spec. by destruct (keyword_hit _ _). Qed.

(** ** Priority classification *)

Ltac in_list := repeat first [ by left | right ].

Lemma priority_tiers :
  priority_keywords !!! "critical"
    = ["critical"; "business-critical"; "down"; "outage"; "not working";
       "failure"; "failed"; "crash"; "urgent"; "immediate"]
  ∧ priority_keywords !!! "high"
    = ["high"; "security"; "breach"; "malware"; "slow"; "performance";
       "locked"; "cannot"; "unable"; "broken"]
  ∧ priority_keywords !!! "medium"
    = ["medium"; "sync"; "access"; "permission"; "configuration"]
  ∧ priority_keywords !!! "low"
    = ["request"; "setup"; "new user"; "license"; "standard"; "routine"].
Proof. repeat split; vm_compute; reflexivity. Qed.

Example priority_critical_beats_low :
  calculate_priority_score "Routine license request: mail server is DOWN" = 10.
Proof. vm_compute. reflexivity. Qed.

Example priority_default :
  calculate_priority_score "Question about the cafeteria menu" = 6.
Proof. vm_compute. reflexivity. Qed.

(** C2: [calculate_priority_score] returns one of 2, 5, 6, 8, 10, chosen by
    the first tier, in the order critical, high, medium, low, one of whose
    phrases occurs as a substring of the lower-cased text: 10 as soon as a
    critical phrase occurs (whatever the lower tiers say), else 8, else 5,
    else 2, and 6 when no tier has a phrase in the text. *)
Theorem calculate_priority_score_tiered (text : string) :
  let score := calculate_priority_score text in
  let hit tier := phrase_occurs (priority_keywords !!! tier) (PyStr.lower text) in
  score ∈ [2; 5; 6; 8; 10]
  ∧ (hit "critical" → score = 10)
  ∧ (hit "critical" ∧ score = 10
     ∨ ¬ hit "critical" ∧ hit "high" ∧ score = 8
     ∨ ¬ hit "critical" ∧ ¬ hit "high" ∧ hit "medium" ∧ score = 5
     ∨ ¬ hit "critical" ∧ ¬ hit "high" ∧ ¬ hit "medium" ∧ hit "low"
       ∧ score = 2
     ∨ ¬ hit "critical" ∧ ¬ hit "high" ∧ ¬ hit "medium" ∧ ¬ hit "low"
       ∧ score = 6).
Proof.
  intros score hit. subst score hit. unfold calculate_priority_score.
  generalize (priority_keywords !!! "critical") (priority_keywords !!! "high")
    (priority_keywords !!! "medium") (priority_keywords !!! "low").
  intros critical high medium low.
  destruct (keyword_hit critical _) eqn:Hc;
    [apply keyword_hit_spec in Hc | apply keyword_hit_false in Hc].
  { split; [in_list | split; [done | by left]]. }
  destruct (keyword_hit high _) eqn:Hh;
    [apply keyword_hit_spec in Hh | apply keyword_hit_false in Hh].
  { split; [in_list | split; [done | right; by left]]. }
  destruct (keyword_hit medium _) eqn:Hm;
    [apply keyword_hit_spec in Hm | apply keyword_hit_false in Hm].
  { split; [in_list | split; [done | do 2 right; by left]]. }
  destruct (keyword_hit low _) eqn:Hl;
    [apply keyword_hit_spec in Hl | apply keyword_hit_false in Hl].
  { split; [in_list | split; [done | do 3 right; by left]]. }
  split; [in_list | split; [done | by do 4 right]].
Qed.

(** ** Skill extraction *)

Lemma matched_skills_acc table text_lower acc tag :
  tag ∈ foldl (fun relevant_skills (entry : string * list string) =>
                 if keyword_hit entry.2 text_lower
                 then relevant_skills ++ [entry.1]
                 else relevant_skills) acc table
  ↔ tag ∈ acc
    ∨ ∃ keywords, (tag, keywords) ∈ table
                  ∧ phrase_occurs keywords text_lower.
Proof.
  revert acc. induction table as [|[skill keywords] table IH]; intros acc.
  - simpl. split; [by left | intros [?|(? & []%elem_of_nil & _)]; done].
  - simpl. rewrite IH. clear IH.
    destruct (keyword_hit keywords text_lower) eqn:Hk.
    + apply keyword_hit_spec in Hk. rewrite elem_of_app, list_elem_of_singleton.
      split.
      * intros [[?| ->]|(kws & ? & ?)]; [by left | |].
        -- right. exists keywords. split; [left | done].
        -- right. exists kws. split; [by right | done].
      * intros [?|(kws & [[= -> ->]|?]%elem_of_cons & ?)].
        -- left. by left.
        -- left. by right.
        -- right. by exists kws.
    + apply keyword_hit_false in Hk. split.
      * intros [?|(kws & ? & ?)]; [by left |].
        right. exists kws. split; [by right | done].
      * intros [?|(kws & [[= -> ->]|?]%elem_of_cons & ?)];
          [by left | done | right; by exists kws].
Qed.

Lemma matched_skills_spec table text_lower tag :
  tag ∈ matched_skills table text_lower
  ↔ ∃ keywords, (tag, keywords) ∈ table ∧ phrase_occurs keywords text_lower.
Proof.
  unfold matched_skills. rewrite matched_skills_acc.
  split; [intros [[]%elem_of_nil|?]; done | by right].
Qed.

Lemma extract_skills_with_spec `{SetOrder} table text tag :
  tag ∈ extract_skills_with table text
  ↔ ∃ keywords, (tag, keywords) ∈ table
                ∧ phrase_occurs keywords (PyStr.lower text).
Proof.
  unfold extract_skills_with. by rewrite list_of_set_elem, matched_skills_spec.
Qed.

Example skills_scenario :
  "VPN_Troubleshooting"
  ∈ @extract_required_skills first_seen_order
      "VPN authentication error, urgent, business down".
Proof. vm_compute. set_solver. Qed.

(** C3: a skill tag is in the result of [extract_required_skills] exactly
    when one of the tag's trigger phrases in [skill_keywords] occurs as a
    substring of the lower-cased text; no tag occurs twice; and the set of
    tags found is the same for every iteration order of the set and for
    every ordering of the keyword table. *)
Theorem extract_required_skills_spec `{SetOrder} (text : string) :
  (∀ tag, tag ∈ extract_required_skills text
          ↔ ∃ keywords, (tag, keywords) ∈ skill_keywords
                        ∧ phrase_occurs keywords (PyStr.lower text))
  ∧ NoDup (extract_required_skills text)
  ∧ (∀ (other : SetOrder) (table : list (string * list string)) tag,
       table ≡ₚ skill_keywords →
       tag ∈ @extract_skills_with other table text
       ↔ tag ∈ extract_required_skills text).
Proof.
  split; [|split].
  - intros tag. apply extract_skills_with_spec.
  - apply list_of_set_NoDup.
  - intros other table tag Hperm. unfold extract_required_skills.
    rewrite !extract_skills_with_spec. by setoid_rewrite Hperm.
Qed.

(** ** Python numbers *)

Module PyNumFacts.
Import SpecFloat PyNum.

Lemma iter_pos_inv {A} (P : A → Prop) (f : A → A) p x :
  (∀ y, P y → P (f y)) → P x → P (iter_pos f p x).
Proof.
  intros Hf. revert x. induction p as [p IH|p IH|]; intros x Hx; simpl; auto.
Qed.

Lemma shr_1_nonneg mrs : 0 ≤ shr_m mrs → 0 ≤ shr_m (shr_1 mrs).
Proof. destruct mrs as [[|[m|m|]|[m|m|]] r s]; simpl; lia. Qed.

Lemma shr_nonneg mrs e n : 0 ≤ shr_m mrs → 0 ≤ shr_m (shr mrs e n).1.
Proof.
  intros Hm. destruct n as [|p|p]; simpl; [done| |done].
  by apply (iter_pos_inv (λ mrs, 0 ≤ shr_m mrs)); [apply shr_1_nonneg|].
Qed.

Lemma shr_fexp_nonneg m e l : 0 ≤ m → 0 ≤ shr_m (shr_fexp prec emax m e l).1.
Proof.
  intros Hm. unfold shr_fexp. apply shr_nonneg.
  by destruct l as [|[]].
Qed.

Lemma round_nearest_even_nonneg m l : 0 ≤ m → 0 ≤ round_nearest_even m l.
Proof.
  intros Hm. destruct l as [|[]]; simpl; try lia. destruct (Z.even m); lia.
Qed.

(** Rounding keeps the sign and never makes a NaN. *)
Lemma binary_round_aux_sign s m e l :
  0 ≤ m →
  binary_round_aux prec emax s m e l ≠ S754_nan
  ∧ is_negative (binary_round_aux prec emax s m e l) = s.
Proof.
  intros Hm. unfold binary_round_aux.
  pose proof (shr_fexp_nonneg m e l Hm) as H1.
  destruct (shr_fexp prec emax m e l) as [mrs' e'].
  pose proof (shr_fexp_nonneg _ e' loc_Exact
                (round_nearest_even_nonneg _ (loc_of_shr_record mrs') H1)) as H2.
  destruct (shr_fexp prec emax _ e' loc_Exact) as [mrs'' e''].
  simpl in H2. destruct (shr_m mrs'') as [|q|q]; [done| |lia].
  by destruct (e'' <=? emax - prec).
Qed.

Lemma binary_round_sign s m e :
  binary_round prec emax s m e ≠ S754_nan
  ∧ is_negative (binary_round prec emax s m e) = s.
Proof.
  unfold binary_round. destruct (shl_align _ _ _) as [mz ez].
  by apply binary_round_aux_sign.
Qed.

Lemma dyadic_sign m e :
  dyadic m e ≠ S754_nan ∧ is_negative (dyadic m e) = (m <? 0).
Proof.
  unfold dyadic, binary_normalize. destruct m as [|m|m]; [done|..];
    apply binary_round_sign.
Qed.

Lemma float_of_int_Ok z x :
  float_of_int z = Ok x → is_finite x = true ∧ is_negative x = (z <? 0).
Proof.
  unfold float_of_int. destruct (dyadic_sign z 0) as [Hnan Hsign].
  destruct (dyadic z 0) as [s|s| |s m e]; simpl; try done; by intros [= <-].
Qed.

Lemma float_of_int_Raise z e : float_of_int z = Raise e → e = OverflowError.
Proof. unfold float_of_int. destruct (is_infinity _); congruence. Qed.

Lemma SFmul_finite x y :
  is_finite x = true → is_finite y = true →
  SFmul prec emax x y ≠ S754_nan
  ∧ is_negative (SFmul prec emax x y)
    = xorb (is_negative x) (is_negative y).
Proof.
  destruct x as [sx|sx| |sx mx ex], y as [sy|sy| |sy my ey]; try done.
  intros _ _. simpl. by apply binary_round_aux_sign.
Qed.

Lemma SFadd_finite x y :
  x ≠ S754_nan → is_finite y = true → SFadd prec emax x y ≠ S754_nan.
Proof.
  destruct x as [sx|sx| |sx mx ex], y as [sy|sy| |sy my ey]; try done.
  - intros _ _. simpl. by destruct sx, sy.
  - intros _ _. simpl. apply dyadic_sign.
Qed.

Lemma div_eucl_nonneg n d : 0 ≤ n → 0 < d → 0 ≤ (Z.div_eucl n d).1.
Proof.
  intros Hn Hd. change ((Z.div_eucl n d).1) with (n / d). by apply Z.div_pos.
Qed.

Lemma SFdiv_core_binary_nonneg m1 e1 m2 e2 :
  0 ≤ m1 → 0 < m2 → 0 ≤ (SFdiv_core_binary prec emax m1 e1 m2 e2).1.1.
Proof.
  intros H1 H2. unfold SFdiv_core_binary.
  set (m' := match _ with 0 => m1 | Z.pos _ => _ | Z.neg _ => 0 end).
  assert (0 ≤ m') as Hm'.
  { subst m'. destruct (_ - _ - _) as [|p|p]; [done| |done].
    by apply Z.shiftl_nonneg. }
  pose proof (div_eucl_nonneg m' m2 Hm' H2) as Hq.
  change IntDef.Z.div_eucl with Z.div_eucl.
  by destruct (Z.div_eucl m' m2) as [q r].
Qed.

Lemma SFdiv_unrounded a b :
  b ≠ 0 → SFdiv prec emax (unrounded a) (unrounded b) ≠ S754_nan.
Proof.
  intros Hb. destruct a as [|ma|ma], b as [|mb|mb]; try done; simpl;
    (pose proof (SFdiv_core_binary_nonneg (Z.pos ma) 0 (Z.pos mb) 0
                   ltac:(done) ltac:(done)) as Hq;
     destruct (SFdiv_core_binary _ _ _ _ _ _) as [[q e] l];
     by apply binary_round_aux_sign).
Qed.

Lemma add_Raise a b e : add a b = Raise e → e = OverflowError.
Proof.
  unfold add. destruct a as [x|x], b as [y|y]; try done; cbn;
    repeat match goal with
    | |- context [float_of_int ?z] =>
        let E := fresh in
        destruct (float_of_int z) eqn:E;
        [|apply float_of_int_Raise in E]; cbn
    end; congruence.
Qed.

Lemma mul_Raise a b e : mul a b = Raise e → e = OverflowError.
Proof.
  unfold mul. destruct a as [x|x], b as [y|y]; try done; cbn;
    repeat match goal with
    | |- context [float_of_int ?z] =>
        let E := fresh in
        destruct (float_of_int z) eqn:E;
        [|apply float_of_int_Raise in E]; cbn
    end; congruence.
Qed.

Lemma truediv_int_Raise x y e :
  y ≠ 0 → truediv (Int x) (Int y) = Raise e → e = OverflowError.
Proof.
  intros Hy. simpl. apply Z.eqb_neq in Hy. rewrite Hy.
  destruct (is_infinity _); congruence.
Qed.

Lemma truediv_int_Ok x y q :
  truediv (Int x) (Int y) = Ok q →
  ∃ f, q = Float f ∧ is_finite f = true.
Proof.
  simpl. destruct (Z.eqb_spec y 0) as [|Hy]; [done|].
  pose proof (SFdiv_unrounded x y Hy) as Hnan.
  destruct (SFdiv prec emax _ _) as [s|s| |s m e]; simpl; try done;
    intros [= <-]; eauto.
Qed.

Lemma is_nan_Float x : is_nan (Float x) = false ↔ x ≠ S754_nan.
Proof. unfold is_nan. simpl. by destruct x. Qed.

(** A sum is NaN only if a summand is NaN or infinite. *)
Lemma add_not_nan a b c :
  add a b = Ok c → is_nan a = false →
  (∀ y, b = Float y → is_finite y = true) →
  is_nan c = false.
Proof.
  unfold add. intros Hc Ha Hb.
  destruct a as [x|x], b as [y|y]; cbn in Hc.
  - by injection Hc as <-.
  - destruct (float_of_int x) as [fx|] eqn:Hx; [|done]. cbn in Hc.
    injection Hc as <-. apply is_nan_Float, SFadd_finite; [|by apply Hb].
    apply float_of_int_Ok in Hx as [Hx _]. by destruct fx.
  - destruct (float_of_int y) as [fy|] eqn:Hy; [|done]. cbn in Hc.
    injection Hc as <-. apply is_nan_Float, SFadd_finite.
    + by apply is_nan_Float.
    + by apply float_of_int_Ok in Hy as [? _].
  - injection Hc as <-. apply is_nan_Float, SFadd_finite;
      [by apply is_nan_Float | by apply Hb].
Qed.

(** *** Conversions and divisions that do not overflow *)

Lemma digits2_pos_size p : digits2_pos p = Pos.size p.
Proof. induction p as [p IH|p IH|]; simpl; by rewrite ?IH. Qed.

Lemma Zdigits2_log2 m : 0 < m → Zdigits2 m = Z.log2 m + 1.
Proof.
  destruct m as [|p|p]; [lia| |lia]. intros _. simpl.
  rewrite digits2_pos_size. destruct p as [p|p|]; simpl; lia.
Qed.

Lemma Zdigits2_nonneg m : 0 ≤ Zdigits2 m.
Proof. destruct m; simpl; lia. Qed.

Lemma Zdigits2_le m n : 0 ≤ m ≤ n → Zdigits2 m ≤ Zdigits2 n.
Proof.
  intros [Hm Hmn]. destruct (decide (m = 0)) as [->|Hne].
  - apply Zdigits2_nonneg.
  - rewrite !Zdigits2_log2 by lia. pose proof (Z.log2_le_mono m n Hmn). lia.
Qed.

Lemma Zdigits2_succ m : 0 ≤ m → Zdigits2 (m + 1) ≤ Zdigits2 m + 1.
Proof.
  intros Hm. destruct (decide (m = 0)) as [->|Hne]; [done|].
  rewrite !Zdigits2_log2 by lia.
  pose proof (Z.log2_succ_le m). unfold Z.succ in *. lia.
Qed.

Lemma Zdigits2_lt_pow2 m k : 0 ≤ m < 2 ^ k → 0 ≤ k → Zdigits2 m ≤ k.
Proof.
  intros [Hm Hlt] Hk. destruct (decide (m = 0)) as [->|Hne]; [done|].
  rewrite Zdigits2_log2 by lia.
  assert (Z.log2 m < k); [|lia]. apply Z.log2_lt_pow2; lia.
Qed.

Lemma Zdigits2_shiftl m s : 0 < m → 0 ≤ s → Zdigits2 (Z.shiftl m s) = Zdigits2 m + s.
Proof.
  intros Hm Hs.
  assert (0 < Z.shiftl m s).
  { rewrite Z.shiftl_mul_pow2 by done. pose proof (Z.pow_pos_nonneg 2 s). lia. }
  rewrite !Zdigits2_log2 by done.
  rewrite Z.log2_shiftl by lia. lia.
Qed.

(** Shifting right by one takes a digit off. *)
Lemma shr_1_digits mrs :
  0 ≤ shr_m mrs → Zdigits2 (shr_m (shr_1 mrs)) = Z.max (Zdigits2 (shr_m mrs) - 1) 0.
Proof. destruct mrs as [[|[m|m|]|[m|m|]] r s]; simpl; lia. Qed.

Lemma iter_shr_1_digits p mrs :
  0 ≤ shr_m mrs →
  0 ≤ shr_m (iter_pos shr_1 p mrs)
  ∧ Zdigits2 (shr_m (iter_pos shr_1 p mrs))
    = Z.max (Zdigits2 (shr_m mrs) - Z.pos p) 0.
Proof.
  revert mrs. induction p as [p IH|p IH|]; intros mrs Hm; simpl.
  - pose proof (shr_1_nonneg mrs Hm) as H1.
    pose proof (shr_1_digits mrs Hm) as D1.
    destruct (IH _ H1) as [H2 D2]. destruct (IH _ H2) as [H3 D3].
    split; [done|]. rewrite D3, D2, D1. lia.
  - destruct (IH _ Hm) as [H2 D2]. destruct (IH _ H2) as [H3 D3].
    split; [done|]. rewrite D3, D2. lia.
  - split; [by apply shr_1_nonneg | by apply shr_1_digits].
Qed.

(** After [shr_fexp] the mantissa has at most [prec] digits. *)
Lemma shr_fexp_digits m e l :
  0 ≤ m →
  let '(mrs, e') := shr_fexp prec emax m e l in
  0 ≤ shr_m mrs
  ∧ Zdigits2 (shr_m mrs) ≤ prec
  ∧ e' = Z.max e (fexp prec emax (Zdigits2 m + e)).
Proof.
  intros Hm. unfold shr_fexp, shr.
  assert (shr_m (shr_record_of_loc m l) = m) as Hrec by (by destruct l as [|[]]).
  unfold fexp, emin, prec, emax in *.
  destruct (Z.max (Zdigits2 m + e - 53) (3 - 1024 - 53) - e) as [|p|p] eqn:Hn.
  - rewrite Hrec. split; [done|]. split; lia.
  - destruct (iter_shr_1_digits p (shr_record_of_loc m l)) as [H1 D1];
      [by rewrite Hrec|].
    rewrite Hrec in D1. split; [done|]. split; lia.
  - rewrite Hrec. split; [done|]. split; lia.
Qed.

(** Rounding [m * 2^e] does not overflow when [m * 2^e < 2^1023] and
    [e <= 0]. *)
Lemma binary_round_aux_finite s m e l :
  0 ≤ m → Zdigits2 m + e ≤ 1023 → e ≤ 0 →
  is_infinity (binary_round_aux prec emax s m e l) = false.
Proof.
  intros Hm Hd He. unfold binary_round_aux.
  pose proof (shr_fexp_digits m e l Hm) as H1.
  destruct (shr_fexp prec emax m e l) as [mrs' e'].
  destruct H1 as (Hm1 & Hd1 & He').
  set (m2 := round_nearest_even (shr_m mrs') (loc_of_shr_record mrs')).
  assert (0 ≤ m2 ∧ Zdigits2 m2 ≤ prec + 1) as [Hm2 Hd2].
  { subst m2. split; [by apply round_nearest_even_nonneg|].
    pose proof (Zdigits2_succ _ Hm1).
    destruct (loc_of_shr_record mrs') as [|[]]; simpl; try lia.
    destruct (Z.even _); lia. }
  pose proof (shr_fexp_digits m2 e' loc_Exact Hm2) as H2.
  destruct (shr_fexp prec emax m2 e' loc_Exact) as [mrs'' e''].
  destruct H2 as (_ & _ & He'').
  destruct (shr_m mrs''); [done| |done].
  assert (e'' ≤ emax - prec) as Hle.
  { unfold fexp, emin, prec, emax in *. lia. }
  apply Z.leb_le in Hle. by rewrite Hle.
Qed.

Lemma iter_xO_digits m p :
  Zdigits2 (Z.pos (Pos.iter xO m p)) = Zdigits2 (Z.pos m) + Z.pos p.
Proof.
  induction p as [|p IH] using Pos.peano_ind; [simpl; lia|].
  rewrite Pos.iter_succ. simpl in *. lia.
Qed.

(** [float(z)] returns below [2^1023]. *)
Lemma shl_align_digits m e e' :
  let '(m', e'') := shl_align m e e' in
  e'' = Z.min e e' ∧ Zdigits2 (Z.pos m') + e'' = Zdigits2 (Z.pos m) + e.
Proof.
  unfold shl_align. destruct (e' - e) as [|p|p] eqn:Hd; [lia| lia |].
  split; [lia|].
  change (PosDef.Pos.iter xO m p) with (Pos.iter xO m p).
  rewrite iter_xO_digits. lia.
Qed.

Lemma binary_round_finite s m e :
  Zdigits2 (Z.pos m) + e ≤ 1023 → e ≤ 0 →
  is_infinity (binary_round prec emax s m e) = false.
Proof.
  intros Hd He. unfold binary_round.
  pose proof (shl_align_digits m e (fexp prec emax (Zdigits2 (Z.pos m) + e))) as H.

  destruct (shl_align _ _ _) as [mz ez]. destruct H as [He' Hd'].
  apply binary_round_aux_finite; lia.
Qed.

Lemma float_of_int_returns z :
  Z.abs z < 2 ^ 1023 → ∃ x, float_of_int z = Ok x.
Proof.
  intros Hz. unfold float_of_int, dyadic, binary_normalize.
  destruct z as [|m|m]; [by eexists|..];
    (rewrite binary_round_finite; [by eexists| |done];
     pose proof (Zdigits2_lt_pow2 (Z.pos m) 1023); lia).
Qed.

Lemma SFdiv_core_binary_bound m1 m2 B :
  0 < m1 → 0 < m2 → m1 ≤ m2 * B →
  let '(q, e, l) := SFdiv_core_binary prec emax m1 0 m2 0 in
  0 ≤ q ∧ e ≤ 0 ∧ Zdigits2 q + e ≤ Zdigits2 B.
Proof.
  intros H1 H2 HB.
  assert (0 < B) as HB0 by nia.
  pose proof (SFdiv_core_binary_nonneg m1 0 m2 0 ltac:(lia) H2) as Hq.
  revert Hq. unfold SFdiv_core_binary.
  change IntDef.Z.div_eucl with Z.div_eucl.
  set (e' := Z.min _ (0 - 0)).
  assert (e' ≤ 0) as He' by (subst e'; lia).
  destruct (0 - 0 - e') as [|p|p] eqn:Hs; [| |lia].
  - pose proof (Z.div_le_upper_bound m1 m2 B H2 HB) as Hle.
    change (m1 / m2) with (Z.div_eucl m1 m2).1 in Hle.
    destruct (Z.div_eucl m1 m2) as [q r]. simpl in *. intros Hq.
    split; [done|]. split; [done|].
    pose proof (Zdigits2_le q B). lia.
  - assert (Z.shiftl m1 (Z.pos p) / m2 ≤ Z.shiftl B (Z.pos p)) as Hle.
    { apply Z.div_le_upper_bound; [done|].
      rewrite !Z.shiftl_mul_pow2 by lia.
      pose proof (Z.pow_pos_nonneg 2 (Z.pos p)). nia. }
    change (Z.shiftl m1 (Z.pos p) / m2)
      with (Z.div_eucl (Z.shiftl m1 (Z.pos p)) m2).1 in Hle.
    destruct (Z.div_eucl _ m2) as [q r]. simpl in *. intros Hq.
    split; [done|]. split; [done|].
    pose proof (Zdigits2_le q (Z.shiftl B (Z.pos p))).
    pose proof (Zdigits2_shiftl B (Z.pos p)). lia.
Qed.

(** [x / y] returns when the quotient is below [2^1023]. *)
Lemma truediv_int_returns x y B :
  y ≠ 0 → Z.abs x ≤ Z.abs y * B → B < 2 ^ 1023 →
  ∃ q, truediv (Int x) (Int y) = Ok q.
Proof.
  intros Hy Hx HB. unfold truediv. apply Z.eqb_neq in Hy as Hy'. rewrite Hy'.
  assert (is_infinity (SFdiv prec emax (unrounded x) (unrounded y)) = false)
    as ->; [|by eexists].
  destruct x as [|mx|mx], y as [|my|my]; try done; simpl;
    (pose proof (SFdiv_core_binary_bound (Z.pos mx) (Z.pos my) B
                   ltac:(done) ltac:(done) ltac:(lia)) as Hq;
     destruct (SFdiv_core_binary _ _ _ _ _ _) as [[q e] l];
     destruct Hq as (Hq & He & Hd);
     apply binary_round_aux_finite; [done| |done];
     pose proof (Zdigits2_lt_pow2 B 1023); nia).
Qed.

Lemma to_float_returns k a :
  int_within k a → k < 2 ^ 1023 → ∃ x, to_float a = Ok x.
Proof.
  destruct a as [z|x]; simpl; [|by eexists].
  intros Hz Hk. apply float_of_int_returns. lia.
Qed.

Lemma add_returns k1 k2 a b :
  int_within k1 a → int_within k2 b → k1 < 2 ^ 1023 → k2 < 2 ^ 1023 →
  ∃ c, add a b = Ok c ∧ int_within (k1 + k2) c.
Proof.
  intros Ha Hb H1 H2.
  destruct (to_float_returns _ _ Ha H1) as [x Hx].
  destruct (to_float_returns _ _ Hb H2) as [y Hy].
  unfold add. destruct a as [za|xa], b as [zb|xb];
    [eexists; split; [done|simpl in *; lia]|..];
    rewrite Hx, Hy; by eexists.
Qed.

Lemma mul_float_returns k a x :
  int_within k a → k < 2 ^ 1023 → ∃ y, mul a (Float x) = Ok (Float y).
Proof.
  intros Ha Hk. destruct (to_float_returns _ _ Ha Hk) as [x' Hx].
  unfold mul. destruct a; rewrite Hx; by eexists.
Qed.

Lemma mul_int_returns k x b :
  int_within k b → k < 2 ^ 1023 → ∃ y, mul (Float x) b = Ok (Float y).
Proof.
  intros Hb Hk. destruct (to_float_returns _ _ Hb Hk) as [x' Hx].
  unfold mul. simpl to_float at 1. cbn. destruct b; rewrite Hx; by eexists.
Qed.

(** *** The order of the values *)







(** [a <= b] is "not [b < a]" unless a NaN is compared. *)
Lemma le_not_lt a b :
  is_nan a = false → is_nan b = false → le a b = negb (lt b a).
Proof. unfold le, lt, is_nan. by destruct (value_of a), (value_of b). Qed.

End PyNumFacts.

Arguments PyNum.add : simpl never.
Arguments PyNum.mul : simpl never.
Arguments PyNum.truediv : simpl never.
Arguments ScoreSpec.skill_match : simpl never.
Arguments ScoreSpec.experience : simpl never.
Arguments ScoreSpec.bonus : simpl never.
Arguments ScoreSpec.total : simpl never.

(** ** Agent scoring *)

Lemma py_sum_foldr xs : py_sum xs = foldr Z.add 0 xs.
Proof.
  unfold py_sum.
  assert (∀ a, foldl Z.add a xs = a + foldr Z.add 0 xs) as Hgen.
  { induction xs as [|x xs IH]; intros a; simpl; [lia|]. rewrite IH. lia. }
  by rewrite Hgen.
Qed.

Lemma skill_scores_fmap agent required acc :
  foldl (fun skill_scores skill =>
           match skills agent !! skill with
           | Some proficiency => skill_scores ++ [proficiency]
           | None => skill_scores ++ [0]
           end) acc required
  = acc ++ (ScoreSpec.proficiency agent <$> required).
Proof.
  revert acc. induction required as [|skill required IH]; intros acc; simpl.
  - by rewrite app_nil_r.
  - rewrite IH. unfold ScoreSpec.proficiency at 2.
    destruct (skills agent !! skill); simpl; by rewrite <- app_assoc.
Qed.

Lemma py_max_Zmax a b : py_max a b = Z.max a b.
Proof. unfold py_max. destruct (Z.ltb_spec a b); lia. Qed.

(** An int scaled by a finite float is not NaN. *)
Lemma scaled_not_nan z m e scaled :
  PyNum.mul (PyNum.Int z) (PyNum.Float (PyNum.dyadic m e)) = Ok scaled →
  PyNum.is_finite (PyNum.dyadic m e) = true →
  ∃ x, scaled = PyNum.Float x ∧ x ≠ SpecFloat.S754_nan
       ∧ (PyNum.is_negative x
          = xorb (z <? 0) (PyNum.is_negative (PyNum.dyadic m e))).
Proof.
  unfold PyNum.mul. cbn.
  destruct (PyNum.float_of_int z) as [x|] eqn:Hx; [|done]. cbn.
  intros [= <-] Hfin. apply PyNumFacts.float_of_int_Ok in Hx as [Hx Hs].
  eexists. split; [done|]. rewrite <- Hs.
  by apply PyNumFacts.SFmul_finite.
Qed.

(** [min(scaled, 20)], which keeps [scaled] unless [20 < scaled], is
    the smaller of the two. *)
Lemma experience_min z scaled :
  PyNum.mul (PyNum.Int z) (PyNum.Float (PyNum.dyadic 3 (-1))) = Ok scaled →
  PyNum.min scaled (PyNum.Int 20)
  = (if PyNum.le scaled (PyNum.Int 20) then scaled else PyNum.Int 20).
Proof.
  intros (x & -> & Hnan & _)%scaled_not_nan; [|done].
  unfold PyNum.min. rewrite PyNumFacts.le_not_lt;
    [|by apply PyNumFacts.is_nan_Float | done].
  by destruct (PyNum.lt _ _).
Qed.

(** The code computes the components in the order skill match,
    experience, bonus, and then the total. *)
Lemma calculate_agent_score_spec agent rs p load :
  calculate_agent_score agent rs p load
  = skill ← ScoreSpec.skill_match agent rs;
    experience ← ScoreSpec.experience agent;
    bonus ← ScoreSpec.bonus p;
    total ← ScoreSpec.total skill experience (ScoreSpec.workload load)
              (ScoreSpec.availability agent) bonus;
    Ok {| total_score := total; skill_score := skill;
          experience_score := experience;
          workload_score := ScoreSpec.workload load;
          availability_score := ScoreSpec.availability agent;
          priority_bonus := bonus |}.
Proof.
  unfold calculate_agent_score.
  rewrite (skill_scores_fmap agent rs []). simpl app.
  assert ((if decide (availability_status agent = "Available") then 10 else 0)
          = ScoreSpec.availability agent) as ->.
  { unfold ScoreSpec.availability. case_decide as Hs.
    - by rewrite Hs.
    - apply String.eqb_neq in Hs. by rewrite Hs. }
  assert (py_max 0 ((max_reasonable_load - load) * 6) = ScoreSpec.workload load)
    as -> by apply py_max_Zmax.
  assert ((if 8 <=? p
           then PyNum.mul (PyNum.Int p) (PyNum.Float (PyNum.dyadic 1 (-1)))
           else Ok (PyNum.Int 0)) = ScoreSpec.bonus p) as ->.
  { unfold ScoreSpec.bonus. destruct (Z.leb_spec 8 p); case_decide; done || lia. }
  assert (match ScoreSpec.proficiency agent <$> rs with
          | [] => Ok (PyNum.Int 0)
          | _ :: _ =>
              PyNum.truediv
                (PyNum.Int (py_sum (ScoreSpec.proficiency agent <$> rs)))
                (PyNum.Int (Z.of_nat (length (ScoreSpec.proficiency agent <$> rs))))
          end ≫= (λ avg, PyNum.mul avg (PyNum.Int 10))
          = ScoreSpec.skill_match agent rs) as Hskill.
  { unfold ScoreSpec.skill_match. destruct rs as [|r rs]; [done|].
    by rewrite py_sum_foldr, length_fmap. }
  unfold ScoreSpec.experience, ScoreSpec.total. rewrite <- Hskill. clear Hskill.
  destruct (match ScoreSpec.proficiency agent <$> rs with
            | [] => _ | _ :: _ => _ end) as [avg|]; [|done]. cbn.
  destruct (PyNum.mul avg (PyNum.Int 10)) as [skill|]; [|done]. cbn.
  destruct (PyNum.mul (PyNum.Int (experience_level agent)) _)
    as [scaled|] eqn:Hscaled; [|done]. cbn.
  rewrite (experience_min _ _ Hscaled).
  destruct (ScoreSpec.bonus p) as [bonus|]; [|done]. cbn.
  destruct (PyNum.add skill _) as [t1|]; [|done]. cbn.
  destruct (PyNum.add t1 _) as [t2|]; [|done]. cbn.
  destruct (PyNum.add t2 _) as [t3|]; [|done]. cbn.
  by destruct (PyNum.add t3 bonus).
Qed.

Lemma skill_match_Raise agent rs e :
  ScoreSpec.skill_match agent rs = Raise e → e = OverflowError.
Proof.
  unfold ScoreSpec.skill_match. destruct rs as [|r rs]; [done|].
  destruct (PyNum.truediv _ _) as [avg|e'] eqn:Hdiv; cbn.
  - apply PyNumFacts.mul_Raise.
  - intros [= <-]. apply PyNumFacts.truediv_int_Raise in Hdiv; [done|].
    simpl length. lia.
Qed.

Lemma experience_Raise agent e :
  ScoreSpec.experience agent = Raise e → e = OverflowError.
Proof.
  unfold ScoreSpec.experience.
  destruct (PyNum.mul _ _) as [scaled|e'] eqn:Hmul; cbn; [done|].
  intros [= <-]. by apply PyNumFacts.mul_Raise in Hmul.
Qed.

Lemma bonus_Raise p e : ScoreSpec.bonus p = Raise e → e = OverflowError.
Proof.
  unfold ScoreSpec.bonus. case_decide; [apply PyNumFacts.mul_Raise | done].
Qed.

Lemma total_Raise skill experience workload availability bonus e :
  ScoreSpec.total skill experience workload availability bonus = Raise e →
  e = OverflowError.
Proof.
  unfold ScoreSpec.total. cbn.
  destruct (PyNum.add skill experience) as [t1|e1] eqn:H1; cbn;
    [|intros [= <-]; by apply PyNumFacts.add_Raise in H1].
  destruct (PyNum.add t1 _) as [t2|e2] eqn:H2; cbn;
    [|intros [= <-]; by apply PyNumFacts.add_Raise in H2].
  destruct (PyNum.add t2 _) as [t3|e3] eqn:H3; cbn;
    [|intros [= <-]; by apply PyNumFacts.add_Raise in H3].
  apply PyNumFacts.add_Raise.
Qed.

(** What a returned score holds. *)
Lemma calculate_agent_score_Ok agent rs p load s :
  calculate_agent_score agent rs p load = Ok s →
  ScoreSpec.skill_match agent rs = Ok (skill_score s)
  ∧ ScoreSpec.experience agent = Ok (experience_score s)
  ∧ workload_score s = ScoreSpec.workload load
  ∧ availability_score s = ScoreSpec.availability agent
  ∧ ScoreSpec.bonus p = Ok (priority_bonus s)
  ∧ ScoreSpec.total (skill_score s) (experience_score s)
      (workload_score s) (availability_score s) (priority_bonus s)
    = Ok (total_score s).
Proof.
  rewrite calculate_agent_score_spec.
  destruct (ScoreSpec.skill_match agent rs) as [skill|]; [|done]. cbn.
  destruct (ScoreSpec.experience agent) as [experience|]; [|done]. cbn.
  destruct (ScoreSpec.bonus p) as [bonus|]; [|done]. cbn.
  destruct (ScoreSpec.total _ _ _ _ _) as [total|] eqn:Ht; [|done]. cbn.
  by intros [= <-].
Qed.

(** The load enters the score through the workload component only. *)
Lemma calculate_agent_score_workload agent rs p load load' :
  ScoreSpec.workload load = ScoreSpec.workload load' →
  calculate_agent_score agent rs p load = calculate_agent_score agent rs p load'.
Proof. intros Hw. by rewrite !calculate_agent_score_spec, Hw. Qed.

(** The score of Kim for a critical ticket that requires three skills, of
    which Kim has two: 50.0 + 10.5 + 18 + 10 + 5.0 = 93.5. *)
Example score_example :
  let agent := {| agent_id := "agent_007"; name := "Kim";
                  skills := {[ "Networking" := 9; "Cisco_IOS" := 6 ]};
                  experience_level := 7; availability_status := "Available";
                  current_load := 2 |} in
  calculate_agent_score agent
    ["Networking"; "Cisco_IOS"; "DNS_Configuration"] 10 2
  = Ok {| total_score := PyNum.Float (PyNum.dyadic 187 (-1));
          skill_score := PyNum.Float (PyNum.dyadic 50 0);
          experience_score := PyNum.Float (PyNum.dyadic 21 (-1));
          workload_score := 18;
          availability_score := 10;
          priority_bonus := PyNum.Float (PyNum.dyadic 5 0) |}.
Proof. vm_compute. reflexivity. Qed.

(** C4, as first stated, fails in two ways.  The arithmetic is that of
    binary64 floats: for an agent with proficiency 1 in one of three
    required skills the skill component is 3.333333333333333, which is
    not ten times the average 1/3, and the total 48.333333333333336 is
    not the sum of the five components returned with it.  And the
    function does not return for every agent: with an experience level of
    10^400 the conversion to float raises [OverflowError]. *)
Lemma calculate_agent_score_rounds_and_overflows :
  (∃ s skill experience bonus total,
     calculate_agent_score
       {| agent_id := "agent_008"; name := "Ola";
          skills := {[ "Networking" := 1 ]}; experience_level := 0;
          availability_status := "Available"; current_load := 0 |}
       ["Networking"; "Cisco_IOS"; "DNS_Configuration"] 10 0 = Ok s
     ∧ PyNum.value_of (skill_score s) = Some (PyNum.Finite skill)
     ∧ PyNum.value_of (experience_score s) = Some (PyNum.Finite experience)
     ∧ workload_score s = 30
     ∧ availability_score s = 10
     ∧ PyNum.value_of (priority_bonus s) = Some (PyNum.Finite bonus)
     ∧ PyNum.value_of (total_score s) = Some (PyNum.Finite total)
     ∧ ¬ (skill == (1 # 3) * 10)%Q
     ∧ ¬ (total == skill + experience + 30 + 10 + bonus)%Q)
  ∧ calculate_agent_score
      {| agent_id := "agent_009"; name := "Uma"; skills := ∅;
         experience_level := 10 ^ 400; availability_status := "Available";
         current_load := 0 |} [] 6 0
    = Raise OverflowError.
Proof.
  split; [|vm_compute; reflexivity].
  eexists _, _, _, _, _. split; [vm_compute; reflexivity|].
  do 6 (split; [reflexivity|]). split; by vm_compute.
Qed.

(** C4 (amended): when [calculate_agent_score] returns, it returns the
    five named components, each as the design states it in the arithmetic
    of Python numbers (ints exact, floats rounded to the nearest binary64
    value at every operation), and a total that is the components added
    from left to right in that arithmetic: skill match is the average
    proficiency over the required skills (0 for a skill the agent lacks,
    0 for no required skill) times 10; experience is the smaller of
    experience_level * 1.5 and 20; workload is max(0, (5 - load) * 6);
    availability is 10 for the status "Available" and 0 otherwise; the
    priority bonus is priority_score * 0.5 from 8 upwards, else 0.  It
    returns unless one of these computations overflows, and then raises
    [OverflowError]. *)
Theorem calculate_agent_score_components (agent : Agent)
    (required_skills : list string) (priority_score current_load : Z) :
  match calculate_agent_score agent required_skills priority_score
          current_load with
  | Ok s =>
      ScoreSpec.skill_match agent required_skills = Ok (skill_score s)
      ∧ ScoreSpec.experience agent = Ok (experience_score s)
      ∧ workload_score s = ScoreSpec.workload current_load
      ∧ availability_score s = ScoreSpec.availability agent
      ∧ ScoreSpec.bonus priority_score = Ok (priority_bonus s)
      ∧ ScoreSpec.total (skill_score s) (experience_score s)
          (workload_score s) (availability_score s) (priority_bonus s)
        = Ok (total_score s)
  | Raise e =>
      e = OverflowError
      ∧ (ScoreSpec.skill_match agent required_skills = Raise OverflowError
         ∨ ScoreSpec.experience agent = Raise OverflowError
         ∨ ScoreSpec.bonus priority_score = Raise OverflowError
         ∨ ∃ skill experience bonus,
             ScoreSpec.skill_match agent required_skills = Ok skill
             ∧ ScoreSpec.experience agent = Ok experience
             ∧ ScoreSpec.bonus priority_score = Ok bonus
             ∧ ScoreSpec.total skill experience
                 (ScoreSpec.workload current_load)
                 (ScoreSpec.availability agent) bonus
               = Raise OverflowError)
  end.
Proof.
  destruct (calculate_agent_score _ _ _ _) as [s|e] eqn:Hscore;
    [by apply calculate_agent_score_Ok in Hscore|].
  rewrite calculate_agent_score_spec in Hscore.
  destruct (ScoreSpec.skill_match agent required_skills) as [skill|e'] eqn:Hs;
    cbn in Hscore.
  2: { injection Hscore as <-. apply skill_match_Raise in Hs as ->.
       split; [done | by left]. }
  destruct (ScoreSpec.experience agent) as [experience|e'] eqn:He;
    cbn in Hscore.
  2: { injection Hscore as <-. apply experience_Raise in He as ->.
       split; [done | right; by left]. }
  destruct (ScoreSpec.bonus priority_score) as [bonus|e'] eqn:Hb;
    cbn in Hscore.
  2: { injection Hscore as <-. apply bonus_Raise in Hb as ->.
       split; [done | do 2 right; by left]. }
  destruct (ScoreSpec.total _ _ _ _ _) as [total|e'] eqn:Ht; cbn in Hscore;
    [done|].
  injection Hscore as <-. pose proof (total_Raise _ _ _ _ _ _ Ht) as ->.
  split; [done|]. do 3 right. by exists skill, experience, bonus.
Qed.

(** C5: for a fixed agent, skill list and priority, the workload component
    of the scores returned never grows when the load grows, is 0 from load
    5 upwards, and is never negative. *)
Theorem workload_score_monotone (agent : Agent) (required_skills : list string)
    (priority_score load1 load2 : Z) (s1 s2 : ScoreInfo) :
  calculate_agent_score agent required_skills priority_score load1 = Ok s1 →
  calculate_agent_score agent required_skills priority_score load2 = Ok s2 →
  load1 ≤ load2 →
  workload_score s2 ≤ workload_score s1
  ∧ (5 ≤ load2 → workload_score s2 = 0)
  ∧ 0 ≤ workload_score s2.
Proof.
  intros (_ & _ & -> & _)%calculate_agent_score_Ok
         (_ & _ & -> & _)%calculate_agent_score_Ok Hle.
  unfold ScoreSpec.workload. lia.
Qed.

Lemma workload_score_monotone_witness :
  let agent := {| agent_id := "agent_007"; name := "Kim"; skills := ∅;
                  experience_level := 3; availability_status := "Away";
                  current_load := 0 |} in
  ∃ s1 s2,
    calculate_agent_score agent [] 6 3 = Ok s1
    ∧ calculate_agent_score agent [] 6 6 = Ok s2
    ∧ workload_score s2 ≤ workload_score s1
    ∧ (5 ≤ 6 → workload_score s2 = 0)
    ∧ 0 ≤ workload_score s2.
Proof.
  eexists _, _. split; [vm_compute; reflexivity|].
  split; [vm_compute; reflexivity|].
  eapply (workload_score_monotone
            {| agent_id := "agent_007"; name := "Kim"; skills := ∅;
               experience_level := 3; availability_status := "Away";
               current_load := 0 |} [] 6 3 6);
    [vm_compute; reflexivity | vm_compute; reflexivity | lia].
Defined.

(** ** Sorting *)

Section SortFacts.
Context {A : Type} (precedes : A → A → bool).

Lemma insert_by_Permutation x l : insert_by precedes x l ≡ₚ x :: l.
Proof.
  induction l as [|y l IH]; simpl; [done|].
  destruct (precedes y x); [|done]. rewrite IH. apply Permutation_swap.
Qed.

Lemma sort_by_Permutation l : sort_by precedes l ≡ₚ l.
Proof.
  induction l as [|x l IH]; simpl; [done|].
  by rewrite insert_by_Permutation, IH.
Qed.



(** [precedes] is a strict weak order. *)
Hypothesis precedes_asym : ∀ x y, precedes x y = true → precedes y x = false.
Hypothesis precedes_negtrans : ∀ x y z,
  precedes y x = false → precedes z y = false → precedes z x = false.

Lemma insert_by_sorted x l :
  StronglySorted (λ a b, precedes b a = false) l →
  StronglySorted (λ a b, precedes b a = false) (insert_by precedes x l).
Proof.
  induction 1 as [|y l Hl IH Hy]; simpl.
  - repeat constructor.
  - destruct (precedes y x) eqn:Hyx.
    + constructor; [done|].
      rewrite insert_by_Permutation. constructor; [|done].
      by apply precedes_asym.
    + constructor; [by constructor|]. constructor; [done|].
      eapply Forall_impl; [exact Hy|]. simpl. intros z Hz.
      by apply (precedes_negtrans _ y).
Qed.

Lemma sort_by_sorted l :
  StronglySorted (λ a b, precedes b a = false) (sort_by precedes l).
Proof.
  induction l as [|x l IH]; simpl; [constructor | by apply insert_by_sorted].
Qed.

Lemma tied_precedes k x y :
  tied precedes k x = true → tied precedes k y = true → precedes y x = false.
Proof.
  unfold tied. rewrite !andb_true_iff, !negb_true_iff.
  intros [Hkx Hxk] [Hky Hyk]. by apply (precedes_negtrans _ k).
Qed.

Lemma insert_by_stable k x l :
  filter (λ y, tied precedes k y = true) (insert_by precedes x l)
  = filter (λ y, tied precedes k y = true) (x :: l).
Proof.
  induction l as [|y l IH]; simpl; [done|].
  destruct (precedes y x) eqn:Hyx; [|done].
  rewrite filter_cons, IH, !filter_cons.
  destruct (decide (tied precedes k y = true)) as [Hy|Hy];
    destruct (decide (tied precedes k x = true)) as [Hx|Hx]; try done.
  pose proof (tied_precedes k x y Hx Hy). congruence.
Qed.

(** Stability: elements tied with one another keep their order. *)
Lemma sort_by_stable k l :
  filter (λ y, tied precedes k y = true) (sort_by precedes l)
  = filter (λ y, tied precedes k y = true) l.
Proof.
  induction l as [|x l IH]; simpl; [done|].
  by rewrite insert_by_stable, !filter_cons, IH.
Qed.
End SortFacts.


(** ** The two sort orders *)

Lemma ltb_leb s1 s2 : String.ltb s1 s2 = negb (String.leb s2 s1).
Proof.
  unfold String.ltb, String.leb. rewrite (String.compare_antisym s2 s1).
  by destruct (String.compare s1 s2).
Qed.

(** [key_lt k1 k2] fails exactly when [k2 <= k1] as tuples. *)
Lemma key_lt_false k1 k2 :
  key_lt k1 k2 = false
  ↔ k2.1 < k1.1 ∨ k2.1 = k1.1 ∧ String.le k2.2 k1.2.
Proof.
  unfold key_lt, String.le. rewrite ltb_leb.
  rewrite orb_false_iff, andb_false_iff, Z.ltb_ge, Z.eqb_neq.
  destruct (String.leb k2.2 k1.2); simpl; intuition lia.
Qed.

Lemma ticket_precedes_asym x y :
  ticket_precedes x y = true → ticket_precedes y x = false.
Proof.
  unfold ticket_precedes. intros Hxy. apply key_lt_false.
  unfold key_lt in Hxy. rewrite ltb_leb in Hxy.
  apply orb_true_iff in Hxy as [Hlt|[Heq Hle]%andb_true_iff].
  - left. lia.
  - right. split; [lia|]. apply negb_true_iff in Hle.
    destruct (total String.le (ticket_key x).2 (ticket_key y).2) as [?|Hyx];
      [done|].
    apply Is_true_true in Hyx. unfold String.le in *. congruence.
Qed.

Lemma ticket_precedes_negtrans x y z :
  ticket_precedes y x = false → ticket_precedes z y = false →
  ticket_precedes z x = false.
Proof.
  unfold ticket_precedes. rewrite !key_lt_false.
  intros [?|[? Hxy]] [?|[? Hyz]]; [left; lia..|].
  right. split; [lia|]. by etrans.
Qed.


(** ** The assignment loop *)

Lemma for_each_inv {A B} (f : A → result B) xs ys :
  for_each f xs = Ok ys → Forall2 (λ x y, f x = Ok y) xs ys.
Proof.
  revert ys. induction xs as [|x xs IH]; intros ys; simpl.
  - intros [= <-]. constructor.
  - destruct (f x) as [y|e] eqn:Hx; [|done]. cbn.
    destruct (for_each f xs) as [ys'|e]; [|done]. cbn.
    intros [= <-]. constructor; [done | by apply IH].
Qed.

Lemma for_each_ext {A B} (f g : A → result B) xs :
  (∀ x, x ∈ xs → f x = g x) → for_each f xs = for_each g xs.
Proof.
  induction xs as [|x xs IH]; intros Hfg; simpl; [done|].
  rewrite Hfg by left. rewrite IH; [done|]. intros y Hy. apply Hfg. by right.
Qed.

(** A loop that raises does so at one of its elements. *)
Lemma for_each_Raise {A B} (f : A → result B) xs e :
  for_each f xs = Raise e → ∃ x, x ∈ xs ∧ f x = Raise e.
Proof.
  induction xs as [|x xs IH]; simpl; [done|].
  destruct (f x) as [y|e'] eqn:Hx; cbn.
  - destruct (for_each f xs) as [ys|e']; cbn; [done|].
    intros [= <-]. destruct IH as (x' & Hin & Hx'); [done|].
    exists x'. split; [by right | done].
  - intros [= <-]. exists x. split; [by left | done].
Qed.

Lemma getitem_Ok d k v : getitem d k = Ok v ↔ d !! k = Some v.
Proof. unfold getitem. destruct (d !! k); split; congruence. Qed.

(** Every exception of [calculate_agent_score] is an [OverflowError]. *)
Lemma calculate_agent_score_Raise agent rs p load e :
  calculate_agent_score agent rs p load = Raise e → e = OverflowError.
Proof.
  rewrite calculate_agent_score_spec.
  destruct (ScoreSpec.skill_match agent rs) as [skill|e'] eqn:Hs; cbn;
    [|intros [= <-]; by apply skill_match_Raise in Hs].
  destruct (ScoreSpec.experience agent) as [experience|e'] eqn:He; cbn;
    [|intros [= <-]; by apply experience_Raise in He].
  destruct (ScoreSpec.bonus p) as [bonus|e'] eqn:Hb; cbn;
    [|intros [= <-]; by apply bonus_Raise in Hb].
  destruct (ScoreSpec.total _ _ _ _ _) as [total|e'] eqn:Ht; cbn; [done|].
  intros [= <-]. by apply total_Raise in Ht.
Qed.

(** The scores of a roster: one per agent, in roster order. *)
Lemma scored_inv agents loads rs p scores :
  scored agents loads rs p = Ok scores →
  Forall2 (λ agent x,
             x.1 = agent
             ∧ calculate_agent_score agent rs p (loads !!! agent_id agent)
               = Ok x.2) agents scores.
Proof.
  unfold scored. intros Hs%for_each_inv.
  eapply Forall2_impl; [exact Hs|]. simpl. intros agent x.
  destruct (calculate_agent_score _ _ _ _) as [s|]; [|done]. cbn.
  by intros [= <-].
Qed.

Lemma scored_Raise agents loads rs p e :
  scored agents loads rs p = Raise e →
  e = OverflowError
  ∧ ∃ agent, agent ∈ agents
             ∧ calculate_agent_score agent rs p (loads !!! agent_id agent)
               = Raise OverflowError.
Proof.
  unfold scored. intros (agent & Hin & Hs)%for_each_Raise.
  destruct (calculate_agent_score _ _ _ _) as [s|e'] eqn:Hscore; [done|].
  cbn in Hs. injection Hs as ->.
  pose proof (calculate_agent_score_Raise _ _ _ _ _ Hscore) as ->.
  split; [done|]. by exists agent.
Qed.

Lemma scored_fmap_fst agents loads rs p scores :
  scored agents loads rs p = Ok scores → fst <$> scores = agents.
Proof.
  intros Hs%scored_inv. induction Hs as [|a x agents scores [Hx _] _ IH];
    [done|].
  by rewrite fmap_cons, IH, Hx.
Qed.

(** With a counter for every agent, [score_agents] computes [scored]. *)
Lemma score_agents_covered agents loads rs p :
  covered loads agents →
  score_agents agents loads rs p = scored agents loads rs p.
Proof.
  intros Hcov. unfold score_agents, scored. apply for_each_ext.
  intros a [l Hl]%Hcov. rewrite (lookup_total_correct _ _ _ Hl).
  apply getitem_Ok in Hl. by rewrite Hl.
Qed.

Lemma score_agents_inv agents loads rs p scores :
  score_agents agents loads rs p = Ok scores →
  covered loads agents ∧ scored agents loads rs p = Ok scores.
Proof.
  intros Hs. assert (covered loads agents) as Hcov.
  { unfold score_agents in Hs. apply for_each_inv in Hs.
    induction Hs as [|a s agents scores Ha Hs IH].
    - intros ? []%elem_of_nil.
    - destruct (getitem loads (agent_id a)) as [l|] eqn:Hl; [|done].
      apply getitem_Ok in Hl.
      intros b [->|Hb]%elem_of_cons; [by exists l | by apply IH]. }
  split; [done|]. by rewrite <- score_agents_covered.
Qed.

Lemma first_item_head {A} (l : list A) x : first_item l = Ok x ↔ head l = Some x.
Proof. destruct l; simpl; split; congruence. Qed.

Section LoopFacts.
Context `{ListSort}.

Lemma assign_one_inv agents loads out ti st' :
  assign_one agents (loads, out) ti = Ok st' →
  covered loads agents
  ∧ ∃ scores best load,
      scored agents loads (required_skills ti) (priority ti) = Ok scores
      ∧ head (list_sort score_precedes scores) = Some best
      ∧ loads !! agent_id best.1 = Some load
      ∧ st' = (<[agent_id best.1 := load + 1]> loads,
               out ++ [assignment_for ti best]).
Proof.
  unfold assign_one.
  destruct (score_agents agents loads _ _) as [scores|] eqn:Hs; [|done].
  apply score_agents_inv in Hs as [Hcov Hs]. cbn.
  destruct (first_item _) as [best|] eqn:Hb; [|done].
  apply first_item_head in Hb. cbn.
  destruct (getitem loads (agent_id best.1)) as [load|] eqn:Hl; [|done].
  apply getitem_Ok in Hl. cbn. intros [= <-].
  split; [done|]. by exists scores, best, load.
Qed.

(** The best match is an agent of the roster with its score. *)
Lemma head_scored_agent agents loads rs p scores best :
  scored agents loads rs p = Ok scores →
  head (list_sort score_precedes scores) = Some best →
  best.1 ∈ agents
  ∧ calculate_agent_score best.1 rs p (loads !!! agent_id best.1) = Ok best.2.
Proof.
  intros Hs%scored_inv Hb%head_Some_elem_of.
  rewrite list_sort_Permutation in Hb.
  apply list_elem_of_lookup in Hb as [i Hi].
  destruct (Forall2_lookup_r _ _ _ _ _ Hs Hi) as (a & Ha & <- & Hscore).
  split; [by eapply list_elem_of_lookup_2 | done].
Qed.

(** An iteration raises [IndexError] for an empty roster, and otherwise
    the [OverflowError] of a score. *)
Lemma assign_one_Raise agents loads out ti e :
  covered loads agents →
  assign_one agents (loads, out) ti = Raise e →
  e = IndexError ∧ agents = []
  ∨ e = OverflowError
    ∧ ∃ agent, agent ∈ agents
               ∧ calculate_agent_score agent (required_skills ti) (priority ti)
                   (loads !!! agent_id agent) = Raise OverflowError.
Proof.
  intros Hcov. unfold assign_one. rewrite score_agents_covered by done.
  destruct (scored agents loads _ _) as [scores|e'] eqn:Hs; cbn.
  - destruct (head (list_sort score_precedes scores)) as [best|] eqn:Hb.
    + destruct (head_scored_agent _ _ _ _ _ _ Hs Hb) as [[l Hl]%Hcov _].
      apply first_item_head in Hb. rewrite Hb. cbn.
      apply getitem_Ok in Hl. by rewrite Hl.
    + apply head_None in Hb. rewrite Hb. cbn. intros [= <-]. left.
      split; [done|].
      assert (scores = []) as ->.
      { apply Permutation_nil_r.
        by rewrite <- (list_sort_Permutation score_precedes), Hb. }
      apply scored_fmap_fst in Hs. by rewrite <- Hs.
  - intros [= <-]. right. by apply scored_Raise in Hs.
Qed.

Lemma assign_one_no_agents st ti : assign_one [] st ti = Raise IndexError.
Proof.
  destruct st as [loads out]. unfold assign_one. cbn.
  assert (list_sort score_precedes [] = []) as ->; [|done].
  apply Permutation_nil_r, list_sort_Permutation.
Qed.

Arguments assign_one : simpl never.

Lemma covered_insert loads agents id l :
  covered loads agents → covered (<[id := l]> loads) agents.
Proof.
  intros Hcov a Ha. destruct (decide (id = agent_id a)) as [->|Hne].
  - rewrite lookup_insert_eq. eauto.
  - rewrite lookup_insert_ne by done. by apply Hcov.
Qed.

Lemma assign_loop_app agents st q1 q2 :
  assign_loop agents st (q1 ++ q2)
  = st' ← assign_loop agents st q1; assign_loop agents st' q2.
Proof.
  revert st. induction q1 as [|ti q1 IH]; intros st; simpl; [done|].
  destruct (assign_one agents st ti) as [st1|]; cbn; [apply IH | done].
Qed.

Lemma assign_loop_no_agents st queue :
  queue ≠ [] → assign_loop [] st queue = Raise IndexError.
Proof. destruct queue; [done|]. intros _. simpl. by rewrite assign_one_no_agents. Qed.
End LoopFacts.

Arguments assign_one : simpl never.

Lemma assigned_count_cons id a out :
  assigned_count id (a :: out)
  = (if decide (Assignment.assigned_agent_id a = id) then 1 else 0)
    + assigned_count id out.
Proof.
  unfold assigned_count. rewrite filter_cons.
  case_decide; simpl length; lia.
Qed.

Lemma assigned_count_app id out1 out2 :
  assigned_count id (out1 ++ out2)
  = assigned_count id out1 + assigned_count id out2.
Proof.
  unfold assigned_count. rewrite filter_app, length_app. lia.
Qed.

Lemma assigned_count_nonneg id out : 0 ≤ assigned_count id out.
Proof. unfold assigned_count. lia. Qed.

(** What a run of the loop over [queue] does to the state: it appends one
    record per ticket, in queue order, and every counter grows by the
    number of records that name it. *)
Lemma assign_loop_inv `{ListSort} agents queue loads out loads' out' :
  assign_loop agents (loads, out) queue = Ok (loads', out') →
  ∃ new,
    out' = out ++ new
    ∧ Forall2 (λ asg ti,
                 Assignment.ticket_id asg = ticket_id (ticket ti)
                 ∧ Assignment.title asg = title (ticket ti)) new queue
    ∧ ∀ id, loads' !! id = (λ l, l + assigned_count id new) <$> loads !! id.
Proof.
  revert loads out. induction queue as [|ti queue IH]; intros loads out; simpl.
  - intros [= <- <-]. exists []. split; [by rewrite app_nil_r|].
    split; [constructor|]. intros id.
    destruct (loads !! id); simpl; [f_equal; unfold assigned_count; simpl; lia | done].
  - destruct (assign_one agents (loads, out) ti) as [st1|] eqn:H1; [|done].
    cbn. apply assign_one_inv in H1 as (_ & scores & best & load & _ & _ & Hl & ->).
    intros (new & -> & Hnew & Hloads)%IH.
    exists (assignment_for ti best :: new).
    split; [by rewrite <- app_assoc|]. split; [by constructor|].
    intros id. rewrite Hloads, assigned_count_cons. simpl.
    case_decide as Hid.
    + subst id. rewrite lookup_insert_eq, Hl. simpl. f_equal. lia.
    + rewrite lookup_insert_ne by done.
      destruct (loads !! id); simpl; [f_equal; lia | done].
Qed.

Lemma initial_loads_acc (d : gmap string Z) (agents : list Agent) id :
  foldl (fun d agent => <[agent_id agent := current_load agent]> d) d agents
    !! id
  = match last (filter (λ a, agent_id a = id) agents) with
    | Some a => Some (current_load a)
    | None => d !! id
    end.
Proof.
  revert d. induction agents as [|a agents IH]; intros d; simpl; [done|].
  rewrite IH, filter_cons. case_decide as Hid.
  - destruct (filter _ agents) as [|b l] eqn:Hf; simpl.
    + subst id. by rewrite lookup_insert_eq.
    + destruct (last (b :: l)) eqn:Hlast; [done|]. by apply last_None in Hlast.
  - destruct (last (filter _ agents)); [done|]. by rewrite lookup_insert_ne.
Qed.

Lemma initial_loads_covered agents : covered (initial_loads agents) agents.
Proof.
  intros a Ha. unfold initial_loads. rewrite initial_loads_acc.
  destruct (last _) eqn:Hlast; [eauto|].
  apply last_None in Hlast.
  assert (a ∈ filter (λ b, agent_id b = agent_id a) agents) as Hin
    by (by apply list_elem_of_filter).
  rewrite Hlast in Hin. by apply elem_of_nil in Hin.
Qed.

(** With unique agent ids every counter starts at its agent's
    [current_load]. *)
Lemma initial_loads_lookup agents a :
  NoDup (agent_id <$> agents) → a ∈ agents →
  initial_loads agents !! agent_id a = Some (current_load a).
Proof.
  intros Hnd Ha. unfold initial_loads. rewrite initial_loads_acc.
  destruct (last _) as [b|] eqn:Hlast.
  - apply last_Some_elem_of, list_elem_of_filter in Hlast as [Hid Hb].
    assert (b = a) as ->; [|done].
    apply list_elem_of_lookup in Ha as [i Hi], Hb as [j Hj].
    assert (i = j) as ->; [|congruence].
    eapply NoDup_lookup; [exact Hnd|..]; rewrite list_lookup_fmap.
    + by rewrite Hi.
    + by rewrite Hj, <- Hid.
  - apply last_None in Hlast.
    assert (a ∈ filter (λ b, agent_id b = agent_id a) agents) as Hin
      by (by apply list_elem_of_filter).
    rewrite Hlast in Hin. by apply elem_of_nil in Hin.
Qed.

Section QueueFacts.
Context `{SetOrder} `{ListSort}.

Lemma annotate_all acc tickets :
  foldl (fun acc ticket => acc ++ [annotate ticket]) acc tickets
  = acc ++ (annotate <$> tickets).
Proof.
  revert acc. induction tickets as [|t tickets IH]; intros acc; simpl.
  - by rewrite app_nil_r.
  - by rewrite IH, <- app_assoc.
Qed.

Lemma ticket_queue_sort tickets :
  ticket_queue tickets = sort_by ticket_precedes (annotate <$> tickets).
Proof. unfold ticket_queue. by rewrite annotate_all. Qed.

Lemma ticket_queue_Permutation tickets :
  ticket_queue tickets ≡ₚ annotate <$> tickets.
Proof. rewrite ticket_queue_sort. apply sort_by_Permutation. Qed.

Lemma ticket_queue_nil tickets : ticket_queue tickets = [] ↔ tickets = [].
Proof.
  split; [|by intros ->]. intros Hq.
  pose proof (ticket_queue_Permutation tickets) as Hp. rewrite Hq in Hp.
  apply Permutation_nil_l in Hp. symmetry in Hp. by apply fmap_nil_inv in Hp.
Qed.

Lemma run_assignment_no_agents tickets :
  tickets ≠ [] → run_assignment [] tickets = Raise IndexError.
Proof.
  intros Hne. unfold run_assignment. apply assign_loop_no_agents.
  by rewrite ticket_queue_nil.
Qed.
End QueueFacts.

Example demo_run :
  @assign_tickets first_seen_order insertion_sort demo_agents demo_tickets = Ok demo_out.
Proof. vm_compute. reflexivity. Qed.

(** ** One assignment per ticket *)

Lemma Forall2_ticket_ids (out : list Assignment.t) (queue : list TicketInfo) :
  Forall2 (λ asg ti,
             Assignment.ticket_id asg = ticket_id (ticket ti)
             ∧ Assignment.title asg = title (ticket ti)) out queue →
  Assignment.ticket_id <$> out = (ticket_id ∘ ticket) <$> queue.
Proof.
  induction 1 as [|asg ti out queue [Hid _] _ IH]; [done|].
  rewrite !fmap_cons, IH. f_equal. exact Hid.
Qed.

(** The assignments returned follow the processing queue, ticket by
    ticket. *)
Lemma assign_tickets_follows_queue `{SetOrder} `{ListSort} agents tickets out :
  assign_tickets agents tickets = Ok out →
  Forall2 (λ asg ti,
             Assignment.ticket_id asg = ticket_id (ticket ti)
             ∧ Assignment.title asg = title (ticket ti))
    out (ticket_queue tickets).
Proof.
  unfold assign_tickets, run_assignment.
  destruct (assign_loop _ _ _) as [[loads out']|] eqn:Hrun; [|done].
  cbn. intros [= <-].
  by apply assign_loop_inv in Hrun as (new & -> & Hnew & _).
Qed.

Lemma ticket_queue_length `{SetOrder} tickets :
  length (ticket_queue tickets) = length tickets.
Proof.
  by rewrite (Permutation_length (ticket_queue_Permutation tickets)), length_fmap.
Qed.

(** C1: when [assign_tickets] returns, it returns as many assignments as
    there are tickets, and the ticket ids of the assignments are the ticket
    ids of the input, each as often as in the input: none dropped, none
    duplicated. *)
Theorem assign_tickets_one_per_ticket `{SetOrder} `{ListSort} (agents_data : list Agent)
    (tickets_data : list Ticket) (out : list Assignment.t) :
  assign_tickets agents_data tickets_data = Ok out →
  length out = length tickets_data
  ∧ Assignment.ticket_id <$> out ≡ₚ ticket_id <$> tickets_data.
Proof.
  intros Hout%assign_tickets_follows_queue. split.
  - by rewrite (Forall2_length _ _ _ Hout), ticket_queue_length.
  - rewrite (Forall2_ticket_ids _ _ Hout), ticket_queue_Permutation.
    by rewrite <- list_fmap_compose.
Qed.

Lemma assign_tickets_one_per_ticket_witness :
  @assign_tickets first_seen_order insertion_sort demo_agents demo_tickets = Ok demo_out
  ∧ length demo_out = length demo_tickets
  ∧ Assignment.ticket_id <$> demo_out ≡ₚ ticket_id <$> demo_tickets.
Proof.
  split; [vm_compute; reflexivity|].
  apply (@assign_tickets_one_per_ticket first_seen_order insertion_sort demo_agents).
  vm_compute. reflexivity.
Defined.

(** ** Empty roster *)

(** C10, as first stated, fails for an empty roster with no ticket:
    the loop body never runs, [assign_tickets] returns the empty list and
    [main] writes it. *)
Lemma empty_roster_empty_batch_is_written :
  @assign_tickets first_seen_order insertion_sort [] [] = Ok []
  ∧ @main first_seen_order insertion_sort (Some ([], [])) = Saved []
  ∧ written (@main first_seen_order insertion_sort (Some ([], []))) = Some [].
Proof. repeat split. Qed.

(** C10 (amended): with an empty roster and at least one ticket,
    [assign_tickets] raises [IndexError] at [agent_scores[0]] instead of
    returning, [main] stops there and writes nothing; and whenever [main]
    does write, it writes the complete batch, one assignment per ticket. *)
Theorem empty_roster_raises `{SetOrder} `{ListSort} (tickets_data : list Ticket)
    (dataset : option (list Agent * list Ticket)) :
  (tickets_data ≠ [] →
     assign_tickets [] tickets_data = Raise IndexError
     ∧ main (Some ([], tickets_data)) = Crashed IndexError
     ∧ written (main (Some ([], tickets_data))) = None)
  ∧ (∀ out, written (main dataset) = Some out →
       ∃ agents tickets,
         dataset = Some (agents, tickets)
         ∧ assign_tickets agents tickets = Ok out
         ∧ length out = length tickets).
Proof.
  split.
  - intros Hne. unfold main, assign_tickets.
    by rewrite run_assignment_no_agents.
  - intros out. unfold main. destruct dataset as [[agents tickets]|]; [|done].
    destruct (assign_tickets agents tickets) as [out'|] eqn:Hrun; [|done].
    simpl. intros [= <-]. exists agents, tickets. split; [done|]. split; [done|].
    apply assign_tickets_follows_queue in Hrun.
    by rewrite (Forall2_length _ _ _ Hrun), ticket_queue_length.
Qed.

(** ** The processing order *)

Lemma StronglySorted_lookup {A} (R : A → A → Prop) l i j a b :
  StronglySorted R l → (i < j)%nat →
  l !! i = Some a → l !! j = Some b → R a b.
Proof.
  intros Hs. revert i j. induction Hs as [|x l Hs IH Hx]; intros i j Hij; [done|].
  destruct j as [|j]; [lia|]. destruct i as [|i]; simpl.
  - intros [= <-] Hb. rewrite Forall_forall in Hx. apply Hx.
    by eapply list_elem_of_lookup_2.
  - apply IH. lia.
Qed.

Lemma ticket_tied_iff k y :
  tied ticket_precedes k y = true
  ↔ priority y = priority k
    ∧ creation_timestamp (ticket y) = creation_timestamp (ticket k).
Proof.
  unfold tied, ticket_precedes.
  rewrite andb_true_iff, !negb_true_iff, !key_lt_false. simpl. split.
  - intros [[?|[? Hyk]] [?|[? Hky]]]; try lia.
    split; [lia|]. by apply (anti_symm String.le).
  - intros [-> ->]. split; right; split; done.
Qed.

(** C6: the assignments come out in the order of the processing queue, and
    the queue is the annotated tickets sorted by descending priority, ties
    by ascending creation timestamp: of two queue positions the earlier
    holds the higher priority or, at equal priority, the timestamp that is
    not later; tickets equal on both keys keep their input order; so at
    equal priority a ticket with the strictly older timestamp always comes
    first. *)
Theorem assign_tickets_processing_order `{SetOrder} `{ListSort} (agents_data : list Agent)
    (tickets_data : list Ticket) (out : list Assignment.t) :
  assign_tickets agents_data tickets_data = Ok out →
  let queue := ticket_queue tickets_data in
  Forall2 (λ asg ti,
             Assignment.ticket_id asg = ticket_id (ticket ti)
             ∧ Assignment.title asg = title (ticket ti)) out queue
  ∧ queue ≡ₚ annotate <$> tickets_data
  ∧ (∀ i j a b, (i < j)%nat → queue !! i = Some a → queue !! j = Some b →
       priority b < priority a
       ∨ priority a = priority b
         ∧ String.le (creation_timestamp (ticket a))
                     (creation_timestamp (ticket b)))
  ∧ (∀ p ts,
       filter (λ x, priority x = p ∧ creation_timestamp (ticket x) = ts) queue
       = filter (λ x, priority x = p ∧ creation_timestamp (ticket x) = ts)
           (annotate <$> tickets_data))
  ∧ (∀ i j a b, queue !! i = Some a → queue !! j = Some b →
       priority a = priority b →
       String.ltb (creation_timestamp (ticket a))
                  (creation_timestamp (ticket b)) = true →
       (i < j)%nat).
Proof.
  intros Hrun queue.
  assert (∀ i j a b, (i < j)%nat → queue !! i = Some a → queue !! j = Some b →
            priority b < priority a
            ∨ priority a = priority b
              ∧ String.le (creation_timestamp (ticket a))
                          (creation_timestamp (ticket b))) as Hsorted.
  { intros i j a b Hij Ha Hb. subst queue. rewrite ticket_queue_sort in Ha, Hb.
    pose proof (StronglySorted_lookup _ _ i j a b
                  (sort_by_sorted ticket_precedes ticket_precedes_asym
                     ticket_precedes_negtrans _) Hij Ha Hb) as Hab.
    simpl in Hab. unfold ticket_precedes in Hab.
    apply key_lt_false in Hab. simpl in Hab.
    destruct Hab as [?|[? ?]]; [left; lia | right; split; [lia | done]]. }
  split; [|split; [|split; [|split]]].
  - by apply (assign_tickets_follows_queue agents_data).
  - apply ticket_queue_Permutation.
  - exact Hsorted.
  - intros p ts. subst queue. rewrite ticket_queue_sort.
    pose (k := {| ticket := {| ticket_id := ""; title := ""; description := "";
                               creation_timestamp := ts |};
                  priority := p; required_skills := [] |}).
    assert (∀ l : list TicketInfo,
              filter (λ x, priority x = p ∧ creation_timestamp (ticket x) = ts) l
              = filter (λ y, tied ticket_precedes k y = true) l) as Hf.
    { intros l. apply list_filter_iff. intros y. symmetry.
      apply (ticket_tied_iff k y). }
    rewrite !Hf. apply sort_by_stable, ticket_precedes_negtrans.
  - intros i j a b Ha Hb Hp Hlt.
    destruct (decide (i < j)%nat) as [|Hge]; [done|]. exfalso.
    rewrite ltb_leb, negb_true_iff in Hlt.
    destruct (decide (i = j)) as [->|Hne].
    + assert (a = b) as -> by congruence.
      assert (String.le (creation_timestamp (ticket b))
                (creation_timestamp (ticket b))) as Hrefl by done.
      unfold String.le in Hrefl. apply Is_true_true in Hrefl. congruence.
    + destruct (Hsorted j i b a ltac:(lia) Hb Ha) as [?|[_ Hle]]; [lia|].
      unfold String.le in Hle. apply Is_true_true in Hle. congruence.
Qed.

Lemma assign_tickets_processing_order_witness :
  @assign_tickets first_seen_order insertion_sort demo_agents demo_tickets = Ok demo_out
  ∧ Assignment.ticket_id <$> demo_out = ["TKT-3"; "TKT-2"; "TKT-1"]
  ∧ (ticket_id ∘ ticket) <$> @ticket_queue first_seen_order demo_tickets
    = ["TKT-3"; "TKT-2"; "TKT-1"]
  ∧ Forall2 (λ asg ti,
               Assignment.ticket_id asg = ticket_id (ticket ti)
               ∧ Assignment.title asg = title (ticket ti))
      demo_out (@ticket_queue first_seen_order demo_tickets).
Proof.
  split; [vm_compute; reflexivity|]. split; [reflexivity|].
  split; [vm_compute; reflexivity|].
  apply (@assign_tickets_processing_order first_seen_order insertion_sort demo_agents
           demo_tickets demo_out).
  vm_compute. reflexivity.
Defined.

(** ** States of a run *)

Section RunFacts.
Context `{SetOrder} `{ListSort}.

Lemma state_after_all agents tickets :
  state_after agents tickets (length (ticket_queue tickets))
  = run_assignment agents tickets.
Proof. unfold state_after, run_assignment. by rewrite take_ge. Qed.

Lemma state_after_S agents tickets k ti :
  ticket_queue tickets !! k = Some ti →
  state_after agents tickets (S k)
  = st ← state_after agents tickets k; assign_one agents st ti.
Proof.
  intros Hk. unfold state_after. rewrite (take_S_r _ _ _ Hk), assign_loop_app.
  destruct (assign_loop _ _ (take k _)) as [st|]; cbn; [|done].
  by destruct (assign_one agents st ti).
Qed.

Lemma state_after_le agents tickets k k' st' :
  (k ≤ k')%nat → state_after agents tickets k' = Ok st' →
  ∃ st, state_after agents tickets k = Ok st
        ∧ assign_loop agents st (drop k (take k' (ticket_queue tickets)))
          = Ok st'.
Proof.
  intros Hle. unfold state_after.
  rewrite <- (take_drop k (take k' (ticket_queue tickets))) at 1.
  rewrite take_take, Nat.min_l by done. rewrite assign_loop_app.
  destruct (assign_loop _ _ (take k _)) as [st|]; cbn; [|done]. eauto.
Qed.

(** Every state of a run that returns is defined. *)
Lemma state_after_Ok agents tickets final k :
  run_assignment agents tickets = Ok final →
  ∃ st, state_after agents tickets k = Ok st.
Proof.
  rewrite <- state_after_all. intros Hfinal.
  destruct (decide (k ≤ length (ticket_queue tickets))%nat) as [Hle|Hgt].
  - destruct (state_after_le _ _ _ _ _ Hle Hfinal) as (st & ? & _). eauto.
  - unfold state_after in *. rewrite take_ge by lia.
    rewrite take_ge in Hfinal by lia. eauto.
Qed.

Lemma state_after_loads agents tickets k loads out id :
  state_after agents tickets k = Ok (loads, out) →
  loads !! id
  = (λ l, l + assigned_count id out) <$> initial_loads agents !! id.
Proof.
  intros (new & -> & _ & Hloads)%assign_loop_inv. by rewrite Hloads.
Qed.
End RunFacts.

(** ** Load counters *)

(** C8: in a run over a roster with unique agent ids, after any number [k]
    of iterations an agent's counter is its [current_load] plus the number
    of assignments made to it so far, and when the run returns it is
    [current_load] plus the number of assignments made to the agent in the
    whole run; the counter never decreases from a state to a later one;
    and an iteration adds one assignment and adds 1 to the counter of the
    agent it names, leaving every other counter as it was. *)
Theorem load_counter_invariant `{SetOrder} `{ListSort} (agents_data : list Agent)
    (tickets_data : list Ticket) (agent : Agent) (k : nat)
    (agent_loads : gmap string Z) (assignments : list Assignment.t) :
  NoDup (agent_id <$> agents_data) →
  agent ∈ agents_data →
  state_after agents_data tickets_data k = Ok (agent_loads, assignments) →
  agent_loads !! agent_id agent
    = Some (current_load agent + assigned_count (agent_id agent) assignments)
  ∧ (∀ final_loads final_assignments,
       run_assignment agents_data tickets_data
         = Ok (final_loads, final_assignments) →
       final_loads !! agent_id agent
       = Some (current_load agent
               + assigned_count (agent_id agent) final_assignments))
  ∧ (∀ k' agent_loads' assignments',
       (k ≤ k')%nat →
       state_after agents_data tickets_data k'
         = Ok (agent_loads', assignments') →
       ∃ load load',
         agent_loads !! agent_id agent = Some load
         ∧ agent_loads' !! agent_id agent = Some load'
         ∧ load ≤ load')
  ∧ (∀ ticket_info agent_loads' assignments',
       ticket_queue tickets_data !! k = Some ticket_info →
       state_after agents_data tickets_data (S k)
         = Ok (agent_loads', assignments') →
       ∃ assignment load,
         assignments' = assignments ++ [assignment]
         ∧ agent_loads !! Assignment.assigned_agent_id assignment = Some load
         ∧ agent_loads'
           = <[Assignment.assigned_agent_id assignment := load + 1]>
               agent_loads).
Proof.
  intros Hnd Ha Hk.
  assert (∀ k loads out,
            state_after agents_data tickets_data k = Ok (loads, out) →
            loads !! agent_id agent
            = Some (current_load agent + assigned_count (agent_id agent) out))
    as Hcount.
  { intros k0 loads out Hst.
    rewrite (state_after_loads _ _ _ _ _ _ Hst).
    by rewrite (initial_loads_lookup _ _ Hnd Ha). }
  split; [by apply (Hcount k) | split; [|split]].
  - intros loads' out'. rewrite <- state_after_all. apply Hcount.
  - intros k' loads' out' Hle Hk'.
    exists (current_load agent + assigned_count (agent_id agent) assignments),
           (current_load agent + assigned_count (agent_id agent) out').
    split; [by apply (Hcount k) | split; [by apply (Hcount k')|]].
    destruct (state_after_le _ _ _ _ _ Hle Hk') as (st & Hst & Hrest).
    rewrite Hk in Hst. injection Hst as <-.
    apply assign_loop_inv in Hrest as (new & -> & _).
    rewrite assigned_count_app.
    pose proof (assigned_count_nonneg (agent_id agent) new). lia.
  - intros ti loads' out' Hti HS.
    rewrite (state_after_S _ _ _ _ Hti), Hk in HS. cbn in HS.
    apply assign_one_inv in HS
      as (_ & scores & best & load & _ & _ & Hl & [= -> ->]).
    by exists (assignment_for ti best), load.
Qed.

Lemma load_counter_invariant_witness :
  @state_after first_seen_order insertion_sort demo_agents demo_tickets 2
    = Ok (demo_loads 3 3, take 2 demo_out)
  ∧ demo_loads 3 3 !! "agent_002"
    = Some (2 + assigned_count "agent_002" (take 2 demo_out)).
Proof.
  split; [vm_compute; reflexivity|].
  refine (proj1 (@load_counter_invariant first_seen_order insertion_sort demo_agents
                   demo_tickets
                   {| agent_id := "agent_002"; name := "Alex Rodriguez";
                      skills := {[ "Networking" := 9;
                                   "VPN_Troubleshooting" := 7 ]};
                      experience_level := 7;
                      availability_status := "Available";
                      current_load := 2 |}
                   2 (demo_loads 3 3) (take 2 demo_out) _ _ _)).
  - simpl. compute_done.
  - unfold demo_agents. right. left.
  - vm_compute. reflexivity.
Defined.

(** ** The chosen agent *)

Lemma calculate_priority_score_le text : calculate_priority_score text ≤ 10.
Proof.
  unfold calculate_priority_score.
  repeat match goal with |- context [keyword_hit ?k ?t] =>
    destruct (keyword_hit k t) end; lia.
Qed.

Lemma skill_match_not_nan agent rs skill :
  ScoreSpec.skill_match agent rs = Ok skill → PyNum.is_nan skill = false.
Proof.
  unfold ScoreSpec.skill_match. destruct rs as [|r rs].
  - unfold PyNum.mul. by intros [= <-].
  - destruct (PyNum.truediv _ _) as [avg|] eqn:Hdiv; [|done]. cbn.
    apply PyNumFacts.truediv_int_Ok in Hdiv as (f & -> & Hf).
    unfold PyNum.mul. cbn.
    destruct (PyNum.float_of_int 10) as [ten|] eqn:Hten; [|done]. cbn.
    intros [= <-]. apply PyNumFacts.is_nan_Float.
    apply PyNumFacts.float_of_int_Ok in Hten as [Hten _].
    by apply PyNumFacts.SFmul_finite.
Qed.

(** The experience component of an agent whose level is not negative is
    the int 20 or a finite float. *)
Lemma experience_finite agent experience :
  0 ≤ experience_level agent →
  ScoreSpec.experience agent = Ok experience →
  PyNum.is_nan experience = false
  ∧ ∀ y, experience = PyNum.Float y → PyNum.is_finite y = true.
Proof.
  intros Hlevel. unfold ScoreSpec.experience.
  destruct (PyNum.mul _ _) as [scaled|] eqn:Hscaled; [|done]. cbn.
  apply scaled_not_nan in Hscaled as (x & -> & Hnan & Hsign); [|done].
  assert ((experience_level agent <? 0) = false) as Hpos by lia.
  rewrite Hpos in Hsign. intros [= <-].
  destruct (PyNum.le (PyNum.Float x) (PyNum.Int 20)) eqn:Hle.
  - split; [by apply PyNumFacts.is_nan_Float|]. intros y [= <-].
    destruct x as [?|[]| |]; done.
  - done.
Qed.

(** The bonus of a priority up to 10 is the int 0 or a finite float. *)
Lemma bonus_finite p bonus :
  p ≤ 10 → ScoreSpec.bonus p = Ok bonus →
  PyNum.is_nan bonus = false
  ∧ ∀ y, bonus = PyNum.Float y → PyNum.is_finite y = true.
Proof.
  intros Hp. unfold ScoreSpec.bonus. case_decide as H8; [|by intros [= <-]].
  assert (p = 8 ∨ p = 9 ∨ p = 10) as Hcases by lia.
  destruct Hcases as [->|[->| ->]]; vm_compute; intros [= <-];
    (split; [done|]); by intros y [= <-].
Qed.

(** A total can be NaN only when an infinite skill component meets an
    infinite experience component of the opposite sign: it never is for
    an agent whose experience level is not negative. *)
Lemma total_score_not_nan agent rs p load s :
  0 ≤ experience_level agent → p ≤ 10 →
  calculate_agent_score agent rs p load = Ok s →
  PyNum.is_nan (total_score s) = false.
Proof.
  intros Hlevel Hp (Hskill & Hexp & _ & _ & Hbonus & Htotal)%calculate_agent_score_Ok.
  apply skill_match_not_nan in Hskill.
  apply experience_finite in Hexp as [_ Hexp]; [|done].
  apply bonus_finite in Hbonus as [_ Hbonus]; [|done].
  unfold ScoreSpec.total in Htotal. cbn in Htotal.
  destruct (PyNum.add (skill_score s) _) as [t1|] eqn:H1; [|done].
  cbn in Htotal.
  destruct (PyNum.add t1 _) as [t2|] eqn:H2; [|done]. cbn in Htotal.
  destruct (PyNum.add t2 _) as [t3|] eqn:H3; [|done]. cbn in Htotal.
  apply PyNumFacts.add_not_nan in H1; [|done..].
  apply PyNumFacts.add_not_nan in H2; [|done..].
  apply PyNumFacts.add_not_nan in H3; [|done..].
  by apply PyNumFacts.add_not_nan in Htotal.
Qed.

(** With a negative experience level the total can be NaN: for this
    agent the skill component is [inf], the experience component [-inf]
    and their sum NaN. *)
Example total_can_be_nan :
  ∃ s,
    calculate_agent_score
      {| agent_id := "agent_010"; name := "Zed";
         skills := {[ "Networking" := 10 ^ 308 ]};
         experience_level := - 15 * 10 ^ 307;
         availability_status := "Available"; current_load := 0 |}
      ["Networking"] 6 0 = Ok s
    ∧ skill_score s = PyNum.Float (SpecFloat.S754_infinity false)
    ∧ experience_score s = PyNum.Float (SpecFloat.S754_infinity true)
    ∧ PyNum.is_nan (total_score s) = true.
Proof. eexists. split; [vm_compute; reflexivity|]. done. Qed.


(** The tickets of the queue are annotated tickets of the batch. *)
Lemma ticket_queue_elem `{SetOrder} tickets ti :
  ti ∈ ticket_queue tickets → ∃ t, t ∈ tickets ∧ ti = annotate t.
Proof.
  rewrite ticket_queue_Permutation. intros (t & -> & Ht)%list_elem_of_fmap.
  by exists t.
Qed.




(** Rounding decides between totals that are equal as rationals: the
    floats are 33.33333333333333 for Ida and 33.333333333333336 for Jon,
    and the ticket goes to Jon, the second agent of the roster. *)
Example rounding_decides_between_equals :
  (∃ ida jon,
     scored demo_close_agents (initial_loads demo_close_agents)
       (required_skills (@annotate first_seen_order demo_close_ticket))
       (priority (@annotate first_seen_order demo_close_ticket))
     = Ok [ida; jon]
     ∧ total_score ida.2 = PyNum.Float (PyNum.dyadic 4691249611844266 (-47))
     ∧ total_score jon.2 = PyNum.Float (PyNum.dyadic 4691249611844267 (-47))
     ∧ PyNum.lt (total_score ida.2) (total_score jon.2) = true)
  ∧ ∃ out,
      @assign_tickets first_seen_order insertion_sort demo_close_agents
        [demo_close_ticket] = Ok out
      ∧ Assignment.assigned_agent_id <$> out = ["agent_006"].
Proof.
  split.
  - eexists _, _. split; [vm_compute; reflexivity|].
    split; [vm_compute; reflexivity|]. split; vm_compute; reflexivity.
  - eexists. split; vm_compute; reflexivity.
Qed.

(** ** The order of the required skills *)

Lemma relevant_skills_entries agent required acc :
  foldl (fun relevant_skills skill =>
           match skills agent !! skill with
           | Some proficiency =>
               relevant_skills
               ++ ["'" +:+ skill +:+ "' (" +:+ pretty proficiency +:+ ")"]
           | None => relevant_skills
           end) acc required
  = acc ++ (skill_entry agent
              <$> filter (λ skill, is_Some (skills agent !! skill)) required).
Proof.
  revert acc. induction required as [|skill required IH]; intros acc; simpl.
  - by rewrite app_nil_r.
  - rewrite IH, filter_cons.
    destruct (decide (is_Some (skills agent !! skill))) as [[p Hp]|Hnone].
    + rewrite Hp, fmap_cons, <- app_assoc. simpl.
      unfold skill_entry at 2, ScoreSpec.proficiency. by rewrite Hp.
    + destruct (skills agent !! skill); [|done]. destruct Hnone. by eexists.
Qed.

Lemma foldr_add_Permutation (xs ys : list Z) :
  xs ≡ₚ ys → foldr Z.add 0 xs = foldr Z.add 0 ys.
Proof. induction 1; simpl; lia. Qed.

(** The score does not see the order of the required skills. *)
Lemma skill_match_Permutation agent rs rs' :
  rs ≡ₚ rs' → ScoreSpec.skill_match agent rs = ScoreSpec.skill_match agent rs'.
Proof.
  intros Hp. unfold ScoreSpec.skill_match.
  assert (ScoreSpec.proficiency agent <$> rs
          ≡ₚ ScoreSpec.proficiency agent <$> rs') as Hprof by by rewrite Hp.
  destruct rs as [|r rs].
  - by apply Permutation_nil_l in Hp as <-.
  - destruct rs' as [|r' rs']; [by apply Permutation_nil_r in Hp|].
    by rewrite (foldr_add_Permutation _ _ Hprof), (Permutation_length Hp).
Qed.

Lemma calculate_agent_score_Permutation agent rs rs' p load :
  rs ≡ₚ rs' →
  calculate_agent_score agent rs p load = calculate_agent_score agent rs' p load.
Proof.
  intros Hp. by rewrite !calculate_agent_score_spec, (skill_match_Permutation _ _ _ Hp).
Qed.







(** * Further properties *)

(** ** One iteration inside a run *)

Section StepFacts.
Context `{SetOrder} `{ListSort}.

(** In a run that returns, the state after [k] iterations holds the first
    [k] assignments of the result. *)
Lemma state_after_take agents tickets loads out k :
  run_assignment agents tickets = Ok (loads, out) →
  ∃ loads_k, state_after agents tickets k = Ok (loads_k, take k out).
Proof.
  intros Hrun.
  destruct (decide (k ≤ length (ticket_queue tickets))%nat) as [Hle|Hgt].
  - rewrite <- state_after_all in Hrun.
    destruct (state_after_le _ _ _ _ _ Hle Hrun) as ([lk ok] & Hk & Hrest).
    exists lk. rewrite Hk. do 2 f_equal.
    apply assign_loop_inv in Hrest as (rest & -> & _).
    pose proof Hk as (new & -> & Hnew & _)%assign_loop_inv. simpl in *.
    apply Forall2_length in Hnew. rewrite length_take_le in Hnew by done.
    by rewrite take_app_length'.
  - exists loads. unfold state_after. rewrite take_ge by lia.
    unfold run_assignment in Hrun. rewrite Hrun. do 2 f_equal.
    pose proof Hrun as (new & -> & Hnew & _)%assign_loop_inv. simpl.
    apply Forall2_length in Hnew. rewrite take_ge; [done | lia].
Qed.

(** Iteration [k] of a run that returns: every agent has a counter, the
    best match heads the sorted scores, and its record is entry [k] of the
    result. *)
Lemma run_step agents tickets loads out k ti :
  run_assignment agents tickets = Ok (loads, out) →
  ticket_queue tickets !! k = Some ti →
  ∃ loads_k scores best,
    state_after agents tickets k = Ok (loads_k, take k out)
    ∧ covered loads_k agents
    ∧ scored agents loads_k (required_skills ti) (priority ti) = Ok scores
    ∧ head (list_sort score_precedes scores) = Some best
    ∧ out !! k = Some (assignment_for ti best).
Proof.
  intros Hrun Hti.
  destruct (state_after_take _ _ _ _ k Hrun) as (lk & Hk).
  destruct (state_after_take _ _ _ _ (S k) Hrun) as (lS & HS).
  rewrite (state_after_S _ _ _ _ Hti), Hk in HS. cbn in HS.
  apply assign_one_inv in HS
    as (Hcov & scores & best & load & Hscores & Hbest & _ & [= _ Hout]).
  exists lk, scores, best.
  split; [done|]. split; [done|]. split; [done|]. split; [done|].
  assert (length (take k out) = k) as Hlen.
  { pose proof Hk as (new & Hnew & HF & _)%assign_loop_inv. simpl in Hnew.
    rewrite Hnew. apply Forall2_length in HF. rewrite HF.
    apply length_take_le. apply lookup_lt_Some in Hti. lia. }
  assert (take (S k) out !! k = Some (assignment_for ti best)) as Hk'.
  { rewrite Hout. rewrite lookup_app_r by lia.
    by rewrite Hlen, Nat.sub_diag. }
  rewrite lookup_take_lt in Hk' by lia. done.
Qed.
End StepFacts.

(** ** Exceptions and the roster *)

(** The exceptions of the loop: [IndexError] for an empty roster, or the
    [OverflowError] of a score computed at a load that a counter can
    reach. *)
Lemma assign_loop_Raise `{ListSort} agents queue loads out e
    (base : string → Z) (n : Z) :
  covered loads agents →
  (∀ id l, loads !! id = Some l → base id ≤ l ≤ base id + n) →
  assign_loop agents (loads, out) queue = Raise e →
  e = IndexError ∧ agents = [] ∧ queue ≠ []
  ∨ e = OverflowError
    ∧ ∃ agent ti load,
        agent ∈ agents ∧ ti ∈ queue
        ∧ base (agent_id agent) ≤ load
          < base (agent_id agent) + n + Z.of_nat (length queue)
        ∧ calculate_agent_score agent (required_skills ti) (priority ti) load
          = Raise OverflowError.
Proof.
  revert loads out n. induction queue as [|ti queue IH];
    intros loads out n Hcov Hbase; simpl; [done|].
  destruct (assign_one agents (loads, out) ti) as [st1|e1] eqn:H1; cbn.
  - apply assign_one_inv in H1
      as (_ & scores & best & load & _ & _ & Hl & ->).
    intros Hrest. apply (IH _ _ (n + 1)) in Hrest.
    + destruct Hrest as [(-> & -> & _)|(-> & a & ti' & l & Ha & Hti & Hl' & Hs)].
      * left. done.
      * right. split; [done|]. exists a, ti', l.
        split; [done|]. split; [by right|]. split; [lia | done].
    + by apply covered_insert.
    + intros id l. destruct (decide (agent_id best.1 = id)) as [<-|Hne].
      * rewrite lookup_insert_eq. intros [= <-].
        specialize (Hbase _ _ Hl). lia.
      * rewrite lookup_insert_ne by done. intros Hid.
        specialize (Hbase _ _ Hid). lia.
  - intros [= <-].
    apply (assign_one_Raise _ _ _ _ _ Hcov) in H1
      as [[-> ->]|(-> & a & Ha & Hs)].
    + by left.
    + right. split; [done|].
      exists a, ti, (loads !!! agent_id a). split; [done|]. split; [by left|].
      split; [|done].
      destruct (Hcov a Ha) as [l Hl]. rewrite (lookup_total_correct _ _ _ Hl).
      specialize (Hbase _ _ Hl). lia.
Qed.

Lemma assign_tickets_Raise `{SetOrder} `{ListSort} agents tickets e :
  assign_tickets agents tickets = Raise e →
  e = IndexError ∧ agents = [] ∧ tickets ≠ []
  ∨ e = OverflowError
    ∧ ∃ agent ti load,
        agent ∈ agents ∧ ti ∈ ticket_queue tickets
        ∧ initial_loads agents !!! agent_id agent ≤ load
          < initial_loads agents !!! agent_id agent
            + Z.of_nat (length tickets)
        ∧ calculate_agent_score agent (required_skills ti) (priority ti) load
          = Raise OverflowError.
Proof.
  unfold assign_tickets, run_assignment.
  destruct (assign_loop _ _ _) as [final|e'] eqn:Hrun; [done|].
  cbn. intros [= <-].
  apply (assign_loop_Raise _ _ _ _ _ (λ id, initial_loads agents !!! id) 0)
    in Hrun.
  - destruct Hrun as [(-> & -> & Hq)|(-> & a & ti & l & Ha & Hti & Hl & Hs)].
    + left. split; [done|]. split; [done|]. by rewrite ticket_queue_nil in Hq.
    + right. split; [done|]. exists a, ti, l.
      rewrite ticket_queue_length in Hl. split; [done|]. split; [done|].
      split; [lia | done].
  - apply initial_loads_covered.
  - intros id l Hl. rewrite (lookup_total_correct _ _ _ Hl). lia.
Qed.




(** ** Rosters in range *)

Lemma proficiency_sum_bound agent rs B :
  map_Forall (λ _ proficiency, Z.abs proficiency ≤ B) (skills agent) →
  0 ≤ B →
  Z.abs (foldr Z.add 0 (ScoreSpec.proficiency agent <$> rs))
  ≤ Z.abs (Z.of_nat (length rs)) * B.
Proof.
  intros Hs HB. induction rs as [|r rs IH]; [simpl; lia|].
  rewrite fmap_cons. simpl foldr. simpl length.
  assert (Z.abs (ScoreSpec.proficiency agent r) ≤ B) as Hr.
  { unfold ScoreSpec.proficiency.
    destruct (skills agent !! r) as [p|] eqn:Hp; simpl; [|lia].
    by apply (Hs r p). }
  lia.
Qed.

Section InRange.
Context (B : Z).
Context (HB : 6 * (5 + B) + 30 < 2 ^ 1023).

Lemma skill_match_returns agent rs :
  map_Forall (λ _ proficiency, Z.abs proficiency ≤ B) (skills agent) →
  0 ≤ B →
  ∃ skill, ScoreSpec.skill_match agent rs = Ok skill ∧ int_within 0 skill.
Proof.
  intros Hs H0. unfold ScoreSpec.skill_match. destruct rs as [|r rs].
  - by exists (PyNum.Int 0).
  - destruct (PyNumFacts.truediv_int_returns
                (foldr Z.add 0 (ScoreSpec.proficiency agent <$> r :: rs))
                (Z.of_nat (length (r :: rs))) B) as [q Hq].
    + simpl length. lia.
    + by apply proficiency_sum_bound.
    + lia.
    + rewrite Hq. cbn.
      apply PyNumFacts.truediv_int_Ok in Hq as (f & -> & _).
      destruct (PyNumFacts.mul_int_returns 10 f (PyNum.Int 10)) as [y Hy];
        [simpl; lia | lia |].
      rewrite Hy. by eexists.
Qed.

Lemma experience_returns agent :
  Z.abs (experience_level agent) ≤ B →
  ∃ experience,
    ScoreSpec.experience agent = Ok experience ∧ int_within 20 experience.
Proof.
  intros Hl. unfold ScoreSpec.experience.
  destruct (PyNumFacts.mul_float_returns B (PyNum.Int (experience_level agent))
              (PyNum.dyadic 3 (-1))) as [y Hy]; [done | lia |].
  rewrite Hy. cbn. eexists. split; [done|].
  destruct (PyNum.le _ _); simpl; [done | lia].
Qed.

Lemma bonus_returns p :
  p ≤ B → ∃ bonus, ScoreSpec.bonus p = Ok bonus ∧ int_within 0 bonus.
Proof.
  intros Hp. unfold ScoreSpec.bonus. case_decide as H8.
  - destruct (PyNumFacts.mul_float_returns B (PyNum.Int p) (PyNum.dyadic 1 (-1)))
      as [y Hy]; [simpl; lia | lia |].
    rewrite Hy. by eexists.
  - by exists (PyNum.Int 0).
Qed.

Lemma calculate_agent_score_returns agent rs p load :
  Z.abs (experience_level agent) ≤ B →
  map_Forall (λ _ proficiency, Z.abs proficiency ≤ B) (skills agent) →
  p ≤ B → - B ≤ load →
  ∃ s, calculate_agent_score agent rs p load = Ok s.
Proof.
  intros Hl Hs Hp Hload. rewrite calculate_agent_score_spec.
  destruct (skill_match_returns agent rs Hs ltac:(lia)) as (skill & -> & Hskill).
  destruct (experience_returns agent Hl) as (experience & -> & Hexp).
  destruct (bonus_returns p Hp) as (bonus & -> & Hbonus). cbn.
  unfold ScoreSpec.total. cbn.
  destruct (PyNumFacts.add_returns 0 20 _ _ Hskill Hexp) as (t1 & -> & H1); [lia..|]. cbn.
  set (w := ScoreSpec.workload load).
  assert (0 ≤ w ≤ 6 * (5 + B)) as Hw by (subst w; unfold ScoreSpec.workload; lia).
  destruct (PyNumFacts.add_returns (0 + 20) w t1 (PyNum.Int w) H1) as (t2 & -> & H2);
    [simpl; lia | lia..|]. cbn.
  set (av := ScoreSpec.availability agent).
  assert (0 ≤ av ≤ 10) as Hav
    by (subst av; unfold ScoreSpec.availability; destruct (String.eqb _ _); lia).
  destruct (PyNumFacts.add_returns (0 + 20 + w) 10 t2 (PyNum.Int av) H2) as (t3 & -> & H3);
    [simpl; lia | lia..|]. cbn.
  destruct (PyNumFacts.add_returns (0 + 20 + w + 10) 0 t3 bonus H3 Hbonus)
    as (t4 & -> & H4); [lia..|]. cbn.
  by eexists.
Qed.

End InRange.

Lemma initial_loads_in_range agents a B :
  (∀ agent, agent ∈ agents → in_range B agent) → a ∈ agents →
  - B ≤ initial_loads agents !!! agent_id a.
Proof.
  intros Hr Ha. unfold initial_loads.
  rewrite lookup_total_alt, initial_loads_acc.
  destruct (last _) as [b|] eqn:Hlast.
  - apply last_Some_elem_of, list_elem_of_filter in Hlast as [_ Hb].
    destruct (Hr b Hb) as (_ & ? & _). simpl. lia.
  - apply last_None in Hlast.
    assert (a ∈ filter (λ b, agent_id b = agent_id a) agents) as Hin
      by (by apply list_elem_of_filter).
    rewrite Hlast in Hin. by apply elem_of_nil in Hin.
Qed.

(** X17: [assign_tickets] returns for every batch and every non-empty
    roster whose experience levels, current loads and proficiencies are
    at most [2^1020] in magnitude, about [10^307]: no conversion of an
    int overflows there. *)
Theorem assign_tickets_returns_in_range `{SetOrder} `{ListSort}
    (agents_data : list Agent) (tickets_data : list Ticket) (bound : Z) :
  bound ≤ 2 ^ 1020 →
  agents_data ≠ [] →
  (∀ agent, agent ∈ agents_data → in_range bound agent) →
  ∃ out, assign_tickets agents_data tickets_data = Ok out.
Proof.
  intros Hbound Hne Hrange.
  destruct (assign_tickets agents_data tickets_data) as [out|e] eqn:Hrun;
    [by exists out|].
  apply assign_tickets_Raise in Hrun
    as [(_ & ? & _)|(_ & a & ti & l & Ha & Hti & Hl & Hs)]; [done|].
  pose proof (initial_loads_in_range _ _ _ Hrange Ha) as Hinit.
  destruct (Hrange a Ha) as (Hlevel & Hload & Hskills).
  apply ticket_queue_elem in Hti as (t & _ & ->).
  destruct (calculate_agent_score_returns (Z.max bound 10)
              ltac:(lia) a (required_skills (annotate t))
              (priority (annotate t)) l) as [s Hok].
  - lia.
  - intros skill p Hp. specialize (Hskills skill p Hp). simpl in *. lia.
  - pose proof (calculate_priority_score_le
                  (title t +:+ " " +:+ description t)). simpl. lia.
  - lia.
  - congruence.
Qed.

Lemma assign_tickets_returns_in_range_witness :
  ∃ out,
    @assign_tickets first_seen_order insertion_sort demo_agents demo_tickets
    = Ok out.
Proof.
  apply (@assign_tickets_returns_in_range first_seen_order insertion_sort
           demo_agents demo_tickets 10); [lia | done |].
  intros agent Hagent. unfold demo_agents in Hagent.
  repeat (apply elem_of_cons in Hagent as [->|Hagent]);
    [..|by apply elem_of_nil in Hagent];
    unfold in_range; apply (bool_decide_unpack _); vm_compute; reflexivity.
Defined.

(** ** The assigned agent *)

Lemma run_assignment_agents `{SetOrder} `{ListSort} agents tickets loads out assignment :
  run_assignment agents tickets = Ok (loads, out) →
  assignment ∈ out →
  ∃ agent, agent ∈ agents
           ∧ agent_id agent = Assignment.assigned_agent_id assignment.
Proof.
  intros Hrun [k Hk]%list_elem_of_lookup.
  pose proof Hrun as (new & Hnew & Hq & _)%assign_loop_inv. simpl in Hnew.
  subst new.
  destruct (Forall2_lookup_l _ _ _ _ _ Hq Hk) as (ti & Hti & _).
  destruct (run_step _ _ _ _ _ _ Hrun Hti)
    as (lk & scores & best & _ & _ & Hscores & Hbest & Hk').
  rewrite Hk in Hk'. injection Hk' as ->.
  exists best.1. split; [|done].
  by destruct (head_scored_agent _ _ _ _ _ _ Hscores Hbest).
Qed.

(** X2: every assignment returned names an agent of the roster: the
    [assigned_agent_id] is the [agent_id] of some input agent. *)
Theorem assigned_agent_in_roster `{SetOrder} `{ListSort} (agents_data : list Agent)
    (tickets_data : list Ticket) (out : list Assignment.t)
    (assignment : Assignment.t) :
  assign_tickets agents_data tickets_data = Ok out →
  assignment ∈ out →
  ∃ agent, agent ∈ agents_data
           ∧ agent_id agent = Assignment.assigned_agent_id assignment.
Proof.
  unfold assign_tickets.
  destruct (run_assignment agents_data tickets_data) as [[loads out']|] eqn:Hrun;
    [|done].
  cbn. intros [= <-] Hin. by eapply run_assignment_agents.
Qed.

Lemma assigned_agent_in_roster_witness :
  @assign_tickets first_seen_order insertion_sort demo_agents demo_tickets = Ok demo_out
  ∧ ∃ agent, agent ∈ demo_agents ∧ agent_id agent = "agent_002".
Proof.
  split; [vm_compute; reflexivity|].
  apply (@assigned_agent_in_roster first_seen_order insertion_sort demo_agents demo_tickets
           demo_out
           {| Assignment.ticket_id := "TKT-2"; Assignment.title := "VPN tunnel";
              Assignment.assigned_agent_id := "agent_002";
              Assignment.rationale :=
                "Assigned to Alex Rodriguez (agent_002) based on expertise in 'VPN_Troubleshooting' (7), 'Networking' (9). and lower current workload. High priority ticket requiring immediate attention." |}).
  - vm_compute. reflexivity.
  - unfold demo_out. right. left.
Defined.

(** ** Totals that are numbers *)

(** X16: the total of a score that [calculate_agent_score] returns for
    an agent whose experience level is not negative, at a priority of at
    most 10 (the classifier returns no other), is never NaN: it is a
    number that [<] compares with every other total.  A skill component
    may well be infinite; only an experience component of [-inf] could
    cancel it into NaN. *)
Theorem total_score_is_a_number (agent : Agent) (required_skills : list string)
    (priority_score current_load : Z) (score_info : ScoreInfo) :
  0 ≤ experience_level agent →
  priority_score ≤ 10 →
  calculate_agent_score agent required_skills priority_score current_load
    = Ok score_info →
  PyNum.is_nan (total_score score_info) = false
  ∧ PyNum.is_nan (skill_score score_info) = false
  ∧ PyNum.is_nan (experience_score score_info) = false
  ∧ PyNum.is_nan (priority_bonus score_info) = false
  ∧ ∀ other, PyNum.is_nan other = false →
      PyNum.le (total_score score_info) other = true
      ∨ PyNum.lt other (total_score score_info) = true.
Proof.
  intros Hlevel Hp Hscore.
  pose proof (total_score_not_nan _ _ _ _ _ Hlevel Hp Hscore) as Htotal.
  apply calculate_agent_score_Ok in Hscore
    as (Hskill & Hexp & _ & _ & Hbonus & _).
  split; [done|]. split; [by apply skill_match_not_nan in Hskill|].
  split; [by apply experience_finite in Hexp as [? _]|].
  split; [by apply bonus_finite in Hbonus as [? _]|].
  intros other Hother. rewrite PyNumFacts.le_not_lt by done.
  destruct (PyNum.lt other (total_score score_info)); [by right | by left].
Qed.

Lemma total_score_is_a_number_witness :
  ∃ score_info,
    calculate_agent_score demo_available ["Networking"; "Cisco_IOS"] 10 2
      = Ok score_info
    ∧ PyNum.is_nan (total_score score_info) = false.
Proof.
  eexists. split; [vm_compute; reflexivity|].
  refine (proj1 (total_score_is_a_number demo_available
                   ["Networking"; "Cisco_IOS"] 10 2 _ _ _ _));
    [simpl; lia | lia | vm_compute; reflexivity].
Defined.

(** ** The clauses of the rationale *)

(** X5: the rationale built for an agent with the score it got at
    [current_load] credits the agent's experience level when the agent has
    no entry for any required skill (in particular when none is required)
    and its expertise otherwise; it adds the workload clause exactly when
    the load is at most 2, and the high-priority clause exactly when the
    priority is at least 8; the parts are joined by ". " and closed by
    ".". *)
Theorem rationale_clauses (agent : Agent) (required_skills : list string)
    (priority current_load : Z) (score_info : ScoreInfo) :
  calculate_agent_score agent required_skills priority current_load
    = Ok score_info →
  let entries :=
    skill_entry agent
    <$> filter (λ skill, is_Some (skills agent !! skill)) required_skills in
  let credit :=
    match entries with
    | [] => "Assigned to " +:+ name agent +:+ " (" +:+ agent_id agent +:+ ") "
            +:+ "based on experience level ("
            +:+ pretty (experience_level agent) +:+ ")"
    | _ => "Assigned to " +:+ name agent +:+ " (" +:+ agent_id agent +:+ ") "
           +:+ "based on expertise in " +:+ PyStr.join ", " (take 3 entries)
    end in
  create_assignment_rationale agent required_skills score_info priority
  = PyStr.join ". "
      ([credit]
       ++ (if decide (current_load ≤ 2)
           then ["and lower current workload"] else [])
       ++ (if decide (8 ≤ priority)
           then ["High priority ticket requiring immediate attention"]
           else []))
    +:+ ".".
Proof.
  intros (_ & _ & Hworkload & _)%calculate_agent_score_Ok entries credit.
  unfold create_assignment_rationale.
  rewrite (relevant_skills_entries agent required_skills []). simpl app at 1.
  fold entries.
  assert ((15 <? workload_score score_info) = bool_decide (current_load ≤ 2))
    as Hw.
  { rewrite Hworkload. unfold ScoreSpec.workload.
    case_bool_decide as Hl; [apply Z.ltb_lt | apply Z.ltb_ge]; lia. }
  assert ((8 <=? priority) = bool_decide (8 ≤ priority)) as Hp.
  { destruct (Z.leb_spec 8 priority);
      [by rewrite bool_decide_eq_true_2
      | by rewrite bool_decide_eq_false_2 by lia]. }
  rewrite Hw, Hp. subst credit. clearbody entries.
  destruct (decide (current_load ≤ 2)) as [Hl|Hl];
    [rewrite (bool_decide_eq_true_2 _ Hl)
    |rewrite (bool_decide_eq_false_2 _ Hl)];
    (destruct (decide (8 ≤ priority)) as [Hh|Hh];
     [rewrite (bool_decide_eq_true_2 _ Hh)
     |rewrite (bool_decide_eq_false_2 _ Hh)]);
    destruct entries; reflexivity.
Qed.

Lemma rationale_clauses_witness :
  ∃ score_info,
    calculate_agent_score demo_available ["Networking"; "Cisco_IOS"] 10 2
      = Ok score_info
    ∧ create_assignment_rationale demo_available ["Networking"; "Cisco_IOS"]
        score_info 10
      = "Assigned to Sarah Chen (agent_001) based on expertise in 'Networking' (9). and lower current workload. High priority ticket requiring immediate attention.".
Proof.
  eexists. split; [vm_compute; reflexivity|].
  rewrite (rationale_clauses demo_available ["Networking"; "Cisco_IOS"] 10 2);
    [|vm_compute; reflexivity].
  vm_compute. reflexivity.
Defined.

(** ** Text analysis of composed texts *)

Lemma lower_app s t : PyStr.lower (s +:+ t) = PyStr.lower s +:+ PyStr.lower t.
Proof.
  induction s as [|c s IH]; [done|].
  rewrite PyStrFacts.app_cons. simpl. by rewrite IH.
Qed.

Lemma lower_char_idemp c :
  PyStr.lower_char (PyStr.lower_char c) = PyStr.lower_char c.
Proof. by destruct c as [[] [] [] [] [] [] [] []]. Qed.

Lemma lower_idemp s : PyStr.lower (PyStr.lower s) = PyStr.lower s.
Proof.
  induction s as [|c s IH]; simpl; [done|]. by rewrite lower_char_idemp, IH.
Qed.

Lemma str_app_assoc (r s t : string) : (r +:+ s) +:+ t = r +:+ (s +:+ t).
Proof.
  induction r as [|c r IH]; [done|]. by rewrite !PyStrFacts.app_cons, IH.
Qed.

Lemma substring_of_app_l needle s t :
  PyStr.substring_of needle s → PyStr.substring_of needle (s +:+ t).
Proof.
  intros (before & after & ->). exists before, (after +:+ t).
  by rewrite !str_app_assoc.
Qed.

Lemma substring_of_app_r needle s t :
  PyStr.substring_of needle t → PyStr.substring_of needle (s +:+ t).
Proof.
  intros (before & after & ->). exists (s +:+ before), after.
  by rewrite !str_app_assoc.
Qed.

Lemma phrase_occurs_app keywords s t :
  phrase_occurs keywords (PyStr.lower s) ∨ phrase_occurs keywords (PyStr.lower t) →
  phrase_occurs keywords (PyStr.lower (s +:+ " " +:+ t)).
Proof.
  rewrite !lower_app.
  intros [(kw & ? & ?)|(kw & ? & ?)]; exists kw; (split; [done|]).
  - by apply substring_of_app_l.
  - by do 2 apply substring_of_app_r.
Qed.

(** The score in terms of the tier hits, for use in several proofs. *)
Lemma priority_score_cases text :
  let hit tier :=
    keyword_hit (priority_keywords !!! tier) (PyStr.lower text) in
  calculate_priority_score text
  = if hit "critical" then 10 else if hit "high" then 8
    else if hit "medium" then 5 else if hit "low" then 2 else 6.
Proof. reflexivity. Qed.

Lemma keyword_hit_app keywords s t :
  keyword_hit keywords (PyStr.lower s) = true
  ∨ keyword_hit keywords (PyStr.lower t) = true →
  keyword_hit keywords (PyStr.lower (s +:+ " " +:+ t)) = true.
Proof. rewrite !keyword_hit_spec. apply phrase_occurs_app. Qed.

(** A part of the text that does not get the default score bounds the
    priority of the ticket from below. *)
Lemma annotate_priority_part `{SetOrder} (ticket : Ticket) (part : string) :
  part = title ticket ∨ part = description ticket →
  calculate_priority_score part ≠ 6 →
  calculate_priority_score part ≤ priority (annotate ticket).
Proof.
  intros Hpart. simpl. rewrite !priority_score_cases. cbv zeta.
  pose proof (λ kws, keyword_hit_app kws (title ticket) (description ticket))
    as Happ.
  assert (∀ kws, keyword_hit kws (PyStr.lower part) = true →
            keyword_hit kws
              (PyStr.lower (title ticket +:+ " " +:+ description ticket))
            = true) as Hmono.
  { intros kws Hk. apply Happ. destruct Hpart as [-> | ->]; auto. }
  clear Happ Hpart.
  generalize dependent (PyStr.lower part).
  generalize (PyStr.lower (title ticket +:+ " " +:+ description ticket)).
  intros whole lowered Hmono.
  pose proof (Hmono (priority_keywords !!! "critical")) as Hc.
  pose proof (Hmono (priority_keywords !!! "high")) as Hh.
  pose proof (Hmono (priority_keywords !!! "medium")) as Hm.
  pose proof (Hmono (priority_keywords !!! "low")) as Hl.
  destruct (keyword_hit (priority_keywords !!! "critical") lowered);
    [by rewrite Hc|].
  destruct (keyword_hit (priority_keywords !!! "high") lowered);
    [rewrite Hh by done;
     by destruct (keyword_hit (priority_keywords !!! "critical") whole)|].
  destruct (keyword_hit (priority_keywords !!! "medium") lowered);
    [rewrite Hm by done;
     by destruct (keyword_hit (priority_keywords !!! "critical") whole),
          (keyword_hit (priority_keywords !!! "high") whole)|].
  destruct (keyword_hit (priority_keywords !!! "low") lowered); [|done].
  rewrite Hl by done.
  by destruct (keyword_hit (priority_keywords !!! "critical") whole),
       (keyword_hit (priority_keywords !!! "high") whole),
       (keyword_hit (priority_keywords !!! "medium") whole).
Qed.

(** A phrase without the character [c] that begins inside [s], in
    [s + c + t], ends inside [s]. *)
Lemma prefix_without_char c kw s t after :
  s +:+ String c t = kw +:+ after →
  ¬ PyStr.substring_of (String c "") kw →
  ∃ rest, s = kw +:+ rest.
Proof.
  revert s. induction kw as [|d kw IH]; intros s Heq Hc; [by exists s|].
  assert (d ≠ c) as Hd.
  { intros ->. apply Hc. by exists "", kw. }
  destruct s as [|d' s]; rewrite !PyStrFacts.app_cons in Heq;
    [rewrite PyStrFacts.app_empty in Heq; congruence|].
  injection Heq as -> Heq. destruct (IH s Heq) as [rest ->].
  - intros (before & after' & ->). apply Hc.
    exists (String d before), after'. by rewrite PyStrFacts.app_cons.
  - by exists rest.
Qed.

(** A phrase without the character [c] occurs in [s + c + t] only if
    it occurs in [s] or in [t]. *)
Lemma substring_of_joint c kw s t :
  ¬ PyStr.substring_of (String c "") kw →
  PyStr.substring_of kw (s +:+ String c t) →
  PyStr.substring_of kw s ∨ PyStr.substring_of kw t.
Proof.
  intros Hc (before & after & Heq). revert s Heq.
  induction before as [|b before IH]; intros s Heq.
  - rewrite PyStrFacts.app_empty in Heq.
    destruct (prefix_without_char _ _ _ _ _ Heq Hc) as [rest ->].
    left. by exists "", rest.
  - destruct s as [|b' s]; rewrite !PyStrFacts.app_cons in Heq.
    + rewrite PyStrFacts.app_empty in Heq. injection Heq as _ ->.
      right. by exists before, after.
    + injection Heq as -> Heq. destruct (IH s Heq) as [(x & y & ->)|?].
      * left. exists (String b x), y. by rewrite PyStrFacts.app_cons.
      * by right.
Qed.

Lemma phrase_occurs_joint keywords s t :
  Forall (λ kw, ¬ PyStr.substring_of " " kw) keywords →
  phrase_occurs keywords (PyStr.lower (s +:+ " " +:+ t)) →
  phrase_occurs keywords (PyStr.lower s)
  ∨ phrase_occurs keywords (PyStr.lower t).
Proof.
  rewrite Forall_forall. intros Hkws (kw & Hin & Hkw).
  rewrite !lower_app in Hkw.
  destruct (substring_of_joint _ _ _ _ (Hkws kw Hin) Hkw); [left|right];
    by exists kw.
Qed.

Lemma skill_keywords_NoDup : NoDup skill_keywords.*1.
Proof. apply (bool_decide_unpack _). by vm_compute. Qed.

(** The phrases of a tag are those of its one entry in the table. *)
Lemma skill_keywords_entry tag keywords keywords' :
  (tag, keywords) ∈ skill_keywords → (tag, keywords') ∈ skill_keywords →
  keywords' = keywords.
Proof.
  intros [i Hi]%list_elem_of_lookup [j Hj]%list_elem_of_lookup.
  assert (i = j) as ->; [|congruence].
  eapply NoDup_lookup; [apply skill_keywords_NoDup|..];
    rewrite list_lookup_fmap; [by rewrite Hi | by rewrite Hj].
Qed.

(** X6: the text analysed for a ticket is the title, a space and the
    description.  Every skill tag found in the title alone or in the
    description alone is a required skill of the ticket, and unless a
    part, taken alone, gets the default score 6, the ticket's priority is
    at least that part's score.  (A part scored 6 gives no such bound:
    the other part can bring the ticket down to 5 or 2.)  The separating
    space keeps the two parts apart: a tag all of whose trigger phrases
    are single words is required by the ticket only if it is found in the
    title or in the description, never by the end of the one read
    together with the beginning of the other. *)
Theorem annotate_includes_parts `{SetOrder} (ticket : Ticket) :
  annotate ticket
  = {| ticket := ticket;
       priority :=
         calculate_priority_score
           (title ticket +:+ " " +:+ description ticket);
       required_skills :=
         extract_required_skills
           (title ticket +:+ " " +:+ description ticket) |}
  ∧ (∀ tag, tag ∈ extract_required_skills (title ticket)
            ∨ tag ∈ extract_required_skills (description ticket) →
            tag ∈ required_skills (annotate ticket))
  ∧ (calculate_priority_score (title ticket) ≠ 6 →
     calculate_priority_score (title ticket) ≤ priority (annotate ticket))
  ∧ (calculate_priority_score (description ticket) ≠ 6 →
     calculate_priority_score (description ticket)
     ≤ priority (annotate ticket))
  ∧ (∀ tag keywords,
       (tag, keywords) ∈ skill_keywords →
       Forall (λ keyword, ¬ PyStr.substring_of " " keyword) keywords →
       tag ∈ required_skills (annotate ticket) →
       tag ∈ extract_required_skills (title ticket)
       ∨ tag ∈ extract_required_skills (description ticket)).
Proof.
  split; [done|]. split; [|split; [|split]].
  - intros tag. simpl. unfold extract_required_skills.
    rewrite !extract_skills_with_spec.
    intros [(kws & ? & ?)|(kws & ? & ?)]; exists kws; (split; [done|]);
      apply phrase_occurs_app; auto.
  - apply (annotate_priority_part ticket (title ticket)). by left.
  - apply (annotate_priority_part ticket (description ticket)). by right.
  - intros tag keywords Hentry Hwords. simpl. unfold extract_required_skills.
    rewrite !extract_skills_with_spec. intros (kws & Hkws & Hocc).
    rewrite (skill_keywords_entry _ _ _ Hentry Hkws) in Hocc.
    destruct (phrase_occurs_joint _ _ _ Hwords Hocc); [left|right];
      by exists keywords.
Qed.

(** A phrase can match across the joint, and a description can lower the
    default priority of a title. *)
Example phrase_across_the_joint :
  calculate_priority_score "Add new" = 6
  ∧ calculate_priority_score "user for HR" = 6
  ∧ calculate_priority_score ("Add new" +:+ " " +:+ "user for HR") = 2.
Proof. vm_compute. done. Qed.

(** X7: classification is case-insensitive: a text and its lower-cased
    form get the same priority score and the same required skills, and so
    do any two texts with the same lower-cased form. *)
Theorem classification_case_insensitive `{SetOrder} (text other : string) :
  calculate_priority_score (PyStr.lower text) = calculate_priority_score text
  ∧ extract_required_skills (PyStr.lower text) = extract_required_skills text
  ∧ (PyStr.lower text = PyStr.lower other →
     calculate_priority_score text = calculate_priority_score other
     ∧ extract_required_skills text = extract_required_skills other).
Proof.
  unfold calculate_priority_score, extract_required_skills, extract_skills_with.
  rewrite lower_idemp. split; [done|]. split; [done|]. by intros ->.
Qed.

(** ** A roster at or above the reasonable load *)

Lemma calculate_agent_score_saturated agent rs p load :
  max_reasonable_load ≤ load →
  calculate_agent_score agent rs p load
  = calculate_agent_score agent rs p max_reasonable_load.
Proof.
  intros Hload. apply calculate_agent_score_workload.
  unfold ScoreSpec.workload, max_reasonable_load in *. lia.
Qed.

Lemma scored_saturated agents loads rs p :
  saturated loads agents →
  scored agents loads rs p = scored_at max_reasonable_load agents rs p.
Proof.
  intros Hsat. unfold scored, scored_at. apply for_each_ext. intros a Ha.
  destruct (Hsat a Ha) as (l & Hl & Hle).
  rewrite (lookup_total_correct _ _ _ Hl).
  by rewrite calculate_agent_score_saturated.
Qed.

Lemma initial_loads_saturated agents :
  (∀ agent, agent ∈ agents → max_reasonable_load ≤ current_load agent) →
  saturated (initial_loads agents) agents.
Proof.
  intros Hall a Ha. pose proof (initial_loads_covered agents a Ha) as [l Hl].
  exists l. split; [done|]. unfold initial_loads in Hl.
  rewrite initial_loads_acc in Hl.
  destruct (last _) as [b|] eqn:Hlast; [|by rewrite lookup_empty in Hl].
  injection Hl as <-.
  apply last_Some_elem_of, list_elem_of_filter in Hlast as [_ Hb]. by apply Hall.
Qed.

Lemma state_after_saturated `{SetOrder} `{ListSort} agents tickets k loads out :
  (∀ agent, agent ∈ agents → max_reasonable_load ≤ current_load agent) →
  state_after agents tickets k = Ok (loads, out) →
  saturated loads agents.
Proof.
  intros Hall Hk a Ha.
  destruct (initial_loads_saturated agents Hall a Ha) as (l & Hl & Hle).
  exists (l + assigned_count (agent_id a) out). split.
  - by rewrite (state_after_loads _ _ _ _ _ _ Hk), Hl.
  - pose proof (assigned_count_nonneg (agent_id a) out). lia.
Qed.

(** X8: when every agent of the roster starts at a load of 5 or more, the
    load plays no part in the run: at every iteration the scores are those
    computed at load 5, with a workload component of 0, so each ticket
    goes to the agent that heads these scores once sorted, and two tickets
    with the same priority and the same required skills go to the same
    agent. *)
Theorem saturated_roster_ignores_load `{SetOrder} `{ListSort}
    (agents_data : list Agent) (tickets_data : list Ticket)
    (out : list Assignment.t) :
  (∀ agent, agent ∈ agents_data → 5 ≤ current_load agent) →
  assign_tickets agents_data tickets_data = Ok out →
  (∀ k ticket_info assignment,
     ticket_queue tickets_data !! k = Some ticket_info →
     out !! k = Some assignment →
     ∃ agent_scores best_match,
       scored_at 5 agents_data (required_skills ticket_info)
         (priority ticket_info) = Ok agent_scores
       ∧ head (list_sort score_precedes agent_scores) = Some best_match
       ∧ workload_score best_match.2 = 0
       ∧ Assignment.assigned_agent_id assignment = agent_id best_match.1)
  ∧ (∀ i j ticket_i ticket_j assignment_i assignment_j,
       ticket_queue tickets_data !! i = Some ticket_i →
       ticket_queue tickets_data !! j = Some ticket_j →
       out !! i = Some assignment_i →
       out !! j = Some assignment_j →
       priority ticket_i = priority ticket_j →
       required_skills ticket_i ≡ₚ required_skills ticket_j →
       Assignment.assigned_agent_id assignment_i
       = Assignment.assigned_agent_id assignment_j).
Proof.
  intros Hall Hout. unfold assign_tickets in Hout.
  destruct (run_assignment agents_data tickets_data) as [[loads out']|] eqn:Hrun;
    [|done].
  cbn in Hout. injection Hout as ->.
  assert (∀ k ti asg,
            ticket_queue tickets_data !! k = Some ti → out !! k = Some asg →
            ∃ scores best,
              scored_at max_reasonable_load agents_data (required_skills ti)
                (priority ti) = Ok scores
              ∧ head (list_sort score_precedes scores) = Some best
              ∧ asg = assignment_for ti best) as Hstep.
  { intros k ti asg Hti Hasg.
    destruct (run_step _ _ _ _ _ _ Hrun Hti)
      as (lk & scores & best & Hk & _ & Hscores & Hbest & Hk').
    rewrite (scored_saturated _ _ _ _
               (state_after_saturated _ _ _ _ _ Hall Hk)) in Hscores.
    exists scores, best. split; [done|]. split; [done | congruence]. }
  split.
  - intros k ti asg Hti Hasg.
    destruct (Hstep k ti asg Hti Hasg) as (scores & best & Hscores & Hbest & ->).
    exists scores, best. split; [done|]. split; [done|]. split; [|done].
    apply head_Some_elem_of in Hbest. rewrite list_sort_Permutation in Hbest.
    apply list_elem_of_lookup in Hbest as [i Hi].
    apply for_each_inv in Hscores.
    destruct (Forall2_lookup_r _ _ _ _ _ Hscores Hi) as (a & _ & Ha).
    destruct (calculate_agent_score a _ _ _) as [sc|] eqn:Hsc; [|done].
    cbn in Ha. injection Ha as <-. simpl.
    by apply calculate_agent_score_Ok in Hsc as (_ & _ & -> & _).
  - intros i j ti tj ai aj Hti Htj Hai Haj Hp Hrs.
    destruct (Hstep i ti ai Hti Hai) as (si & bi & Hsi & Hbi & ->).
    destruct (Hstep j tj aj Htj Haj) as (sj & bj & Hsj & Hbj & ->).
    assert (si = sj) as ->; [|by assert (bi = bj) as -> by congruence].
    assert (scored_at max_reasonable_load agents_data (required_skills ti)
              (priority ti)
            = scored_at max_reasonable_load agents_data (required_skills tj)
                (priority tj)) as Heq; [|congruence].
    unfold scored_at. apply for_each_ext. intros a _.
    by rewrite Hp, (calculate_agent_score_Permutation _ _ _ _ _ Hrs).
Qed.

Lemma saturated_roster_ignores_load_witness :
  @assign_tickets first_seen_order insertion_sort demo_busy_agents demo_twin_tickets
    = Ok demo_twin_out
  ∧ ∀ i j ticket_i ticket_j assignment_i assignment_j,
      @ticket_queue first_seen_order demo_twin_tickets !! i = Some ticket_i →
      @ticket_queue first_seen_order demo_twin_tickets !! j = Some ticket_j →
      demo_twin_out !! i = Some assignment_i →
      demo_twin_out !! j = Some assignment_j →
      priority ticket_i = priority ticket_j →
      required_skills ticket_i ≡ₚ required_skills ticket_j →
      Assignment.assigned_agent_id assignment_i
      = Assignment.assigned_agent_id assignment_j.
Proof.
  split; [vm_compute; reflexivity|].
  refine (proj2 (@saturated_roster_ignores_load first_seen_order
                   insertion_sort demo_busy_agents demo_twin_tickets
                   demo_twin_out _ _)).
  - intros agent Hin. unfold demo_busy_agents in Hin.
    repeat (apply elem_of_cons in Hin as [->|Hin]; [simpl; lia|]).
    by apply elem_of_nil in Hin.
  - vm_compute. reflexivity.
Defined.

(** ** Agents that share an id *)

(** X9: the load counters are keyed by agent id; an id of the roster gets
    one counter, started at the [current_load] of the last agent with that
    id, and an id that no agent has gets none.  Agents that share an id
    thus share one counter. *)
Theorem initial_loads_last_wins (agents_data : list Agent) (id : string) :
  initial_loads agents_data !! id
  = current_load <$> last (filter (λ agent, agent_id agent = id) agents_data).
Proof.
  unfold initial_loads. rewrite initial_loads_acc.
  destruct (last _); [done | apply lookup_empty].
Qed.

(** ** The order of the input tickets *)

Lemma NoDup_fmap_elem_inj {A B} (f : A → B) (l : list A) x y :
  NoDup (f <$> l) → x ∈ l → y ∈ l → f x = f y → x = y.
Proof.
  intros Hnd [i Hi]%list_elem_of_lookup [j Hj]%list_elem_of_lookup Hf.
  assert (i = j) as ->; [|congruence].
  eapply NoDup_lookup; [exact Hnd|..]; rewrite list_lookup_fmap.
  - by rewrite Hi.
  - by rewrite Hj, Hf.
Qed.

(** With distinct timestamps the processing queue does not depend on the
    order of the input tickets. *)
Lemma ticket_queue_Permutation_eq `{SetOrder} tickets tickets' :
  tickets ≡ₚ tickets' →
  NoDup (creation_timestamp <$> tickets) →
  ticket_queue tickets' = ticket_queue tickets.
Proof.
  intros Hperm Hnd. rewrite !ticket_queue_sort.
  apply (StronglySorted_unique_strong (λ a b, ticket_precedes b a = false)).
  - intros x1 x2 Hx1 Hx2 H12 H21.
    rewrite sort_by_Permutation in Hx1, Hx2. rewrite <- Hperm in Hx1.
    apply list_elem_of_fmap in Hx1 as (t1 & -> & Ht1).
    apply list_elem_of_fmap in Hx2 as (t2 & -> & Ht2).
    assert (t1 = t2) as ->; [|done].
    apply (NoDup_fmap_elem_inj creation_timestamp tickets); [done..|].
    assert (tied ticket_precedes (annotate t2) (annotate t1) = true) as Htied.
    { unfold tied. by rewrite H12, H21. }
    by apply ticket_tied_iff in Htied as [_ Hts].
  - apply sort_by_sorted;
      [apply ticket_precedes_asym | apply ticket_precedes_negtrans].
  - apply sort_by_sorted;
      [apply ticket_precedes_asym | apply ticket_precedes_negtrans].
  - by rewrite !sort_by_Permutation, Hperm.
Qed.

(** X10: when the tickets carry distinct creation timestamps, the result
    of [assign_tickets], assignments, their sequence and an exception if
    any, does not depend on the order in which the tickets are given. *)
Theorem assign_tickets_ticket_order `{SetOrder} `{ListSort} (agents_data : list Agent)
    (tickets_data reordered : list Ticket) :
  tickets_data ≡ₚ reordered →
  NoDup (creation_timestamp <$> tickets_data) →
  assign_tickets agents_data reordered
  = assign_tickets agents_data tickets_data.
Proof.
  intros Hperm Hnd. unfold assign_tickets, run_assignment.
  by rewrite (ticket_queue_Permutation_eq _ _ Hperm Hnd).
Qed.

Lemma assign_tickets_ticket_order_witness :
  @assign_tickets first_seen_order insertion_sort demo_agents (reverse demo_tickets)
  = @assign_tickets first_seen_order insertion_sort demo_agents demo_tickets.
Proof.
  apply assign_tickets_ticket_order.
  - by rewrite reverse_Permutation.
  - simpl. compute_done.
Defined.

(** ** Tags that come together *)

Lemma substring_of_trans inner phrase text :
  PyStr.substring_of inner phrase → PyStr.substring_of phrase text →
  PyStr.substring_of inner text.
Proof.
  intros (b1 & a1 & ->) (b2 & a2 & ->). exists (b2 +:+ b1), (a1 +:+ a2).
  by rewrite !str_app_assoc.
Qed.

Lemma phrases_covered_occurs narrow broad text_lower :
  phrases_covered narrow broad = true →
  phrase_occurs narrow text_lower → phrase_occurs broad text_lower.
Proof.
  unfold phrases_covered. rewrite forallb_forall.
  intros Hcov (phrase & Hin & Hocc).
  apply list_elem_of_In, Hcov, existsb_exists in Hin as (inner & Hinner & Hc).
  exists inner. split; [by apply list_elem_of_In|].
  apply PyStrFacts.contains_spec in Hc. by eapply substring_of_trans.
Qed.

Lemma tag_covered_table (table : list (string * list string))
    narrow broad text_lower :
  forallb (λ entry : string * list string,
             negb (String.eqb entry.1 narrow)
             || existsb (λ other : string * list string,
                           String.eqb other.1 broad
                           && phrases_covered entry.2 other.2)
                        table)
          table = true →
  (∃ kws, (narrow, kws) ∈ table ∧ phrase_occurs kws text_lower) →
  ∃ kws, (broad, kws) ∈ table ∧ phrase_occurs kws text_lower.
Proof.
  rewrite forallb_forall. intros Hcov (kws & Hin & Hocc).
  apply list_elem_of_In, Hcov in Hin. simpl in Hin.
  rewrite String.eqb_refl in Hin. simpl in Hin.
  apply existsb_exists in Hin as ([tag kws'] & Hin' & Hb).
  simpl in Hb. apply andb_true_iff in Hb as [Htag%String.eqb_eq Hb]. subst tag.
  exists kws'. split; [by apply list_elem_of_In|].
  by eapply phrases_covered_occurs.
Qed.

Lemma tag_covered_spec `{SetOrder} narrow broad text :
  tag_covered narrow broad = true →
  narrow ∈ extract_required_skills text →
  broad ∈ extract_required_skills text.
Proof.
  unfold tag_covered, extract_required_skills.
  rewrite !extract_skills_with_spec. apply tag_covered_table.
Qed.

(** X11: some tags never come alone, because every trigger phrase of the
    one contains a trigger phrase of the other: whenever
    DNS_Configuration or Switch_Configuration is extracted so is
    Networking, with Firewall_Configuration comes Network_Security, with
    Phishing_Analysis comes Endpoint_Security, and with
    Network_Monitoring ("monitoring" contains "monitor") comes
    Hardware_Diagnostics. *)
Theorem tags_extracted_together `{SetOrder} (text : string) :
  let found tag := tag ∈ extract_required_skills text in
  (found "DNS_Configuration" → found "Networking")
  ∧ (found "Switch_Configuration" → found "Networking")
  ∧ (found "Firewall_Configuration" → found "Network_Security")
  ∧ (found "Phishing_Analysis" → found "Endpoint_Security")
  ∧ (found "Network_Monitoring" → found "Hardware_Diagnostics").
Proof.
  repeat split; apply tag_covered_spec; vm_compute; reflexivity.
Qed.

(** ** The assignment distribution printed by [main] *)

Example demo_distribution :
  distribution_lines demo_agents demo_out
  = Some ["  agent_001 (Sarah Chen): 2 tickets";
          "  agent_002 (Alex Rodriguez): 1 tickets"].
Proof. vm_compute. reflexivity. Qed.

Lemma counts_acc (counts : gmap string Z) assignments id :
  foldl (fun counts assignment =>
           let agent_id := Assignment.assigned_agent_id assignment in
           <[agent_id := default 0 (counts !! agent_id) + 1]> counts)
        counts assignments !! id
  = match counts !! id with
    | Some c => Some (c + assigned_count id assignments)
    | None => if decide (assigned_count id assignments = 0) then None
              else Some (assigned_count id assignments)
    end.
Proof.
  revert counts. induction assignments as [|a out IH]; intros counts.
  - simpl. destruct (counts !! id); [f_equal; unfold assigned_count; simpl; lia|done].
  - cbn [foldl]. rewrite IH, assigned_count_cons. clear IH.
    pose proof (assigned_count_nonneg id out).
    destruct (decide (Assignment.assigned_agent_id a = id)) as [->|Hne].
    + rewrite lookup_insert_eq. destruct (counts !! id); simpl.
      * f_equal; lia.
      * rewrite decide_False by lia. f_equal; lia.
    + rewrite lookup_insert_ne by done.
      destruct (counts !! id); [f_equal; lia|].
      by replace (0 + assigned_count id out) with (assigned_count id out) by lia.
Qed.

Lemma counts_total_insert (counts : gmap string Z) id :
  foldr Z.add 0 ((map_to_list (<[id := default 0 (counts !! id) + 1]> counts)).*2)
  = foldr Z.add 0 ((map_to_list counts).*2) + 1.
Proof.
  destruct (counts !! id) as [c|] eqn:Hc; simpl.
  - rewrite <- insert_delete_eq.
    rewrite (foldr_add_Permutation _ ((id, c + 1) :: map_to_list (delete id counts)).*2)
      by (by rewrite map_to_list_insert by apply lookup_delete_eq).
    rewrite (foldr_add_Permutation (map_to_list counts).*2
               ((id, c) :: map_to_list (delete id counts)).*2)
      by (by rewrite map_to_list_delete).
    rewrite !fmap_cons. cbn [foldr snd].
    match goal with |- context [foldr Z.add 0 ?l] => generalize (foldr Z.add 0 l) end; intros; lia.
  - rewrite (foldr_add_Permutation _ ((id, 0 + 1) :: map_to_list counts).*2)
      by (by rewrite map_to_list_insert).
    rewrite !fmap_cons. cbn [foldr snd].
    match goal with |- context [foldr Z.add 0 ?l] => generalize (foldr Z.add 0 l) end; intros; lia.
Qed.

Lemma counts_total_acc (counts : gmap string Z) assignments :
  foldr Z.add 0
    ((map_to_list
        (foldl (fun counts assignment =>
                  let agent_id := Assignment.assigned_agent_id assignment in
                  <[agent_id := default 0 (counts !! agent_id) + 1]> counts)
               counts assignments)).*2)
  = foldr Z.add 0 ((map_to_list counts).*2) + Z.of_nat (length assignments).
Proof.
  revert counts. induction assignments as [|a out IH]; intros counts.
  - simpl. lia.
  - cbn [foldl length]. rewrite IH, counts_total_insert. lia.
Qed.

(** X12: the counting loop of [main] gives an agent id that occurs in the
    assignments the number of its assignments, which is at least 1, and
    gives an id that does not occur no entry; the counts add up to the
    number of assignments. *)
Theorem agent_assignment_counts_spec (assignments : list Assignment.t)
    (id : string) :
  agent_assignment_counts assignments !! id
  = (if decide (assigned_count id assignments = 0) then None
     else Some (assigned_count id assignments))
  ∧ (assigned_count id assignments = 0
     ↔ id ∉ Assignment.assigned_agent_id <$> assignments)
  ∧ foldr Z.add 0 (sorted_items (agent_assignment_counts assignments)).*2
    = Z.of_nat (length assignments).
Proof.
  split; [|split].
  - unfold agent_assignment_counts. by rewrite counts_acc, lookup_empty.
  - unfold assigned_count. rewrite list_elem_of_fmap. split.
    + intros Hz (a & -> & Ha).
      assert (a ∈ filter (λ b, Assignment.assigned_agent_id b
                               = Assignment.assigned_agent_id a) assignments)
        as Hin by (by apply list_elem_of_filter).
      destruct (filter _ assignments); [by apply elem_of_nil in Hin|].
      simpl in Hz. lia.
    + intros Hnot. destruct (filter _ assignments) as [|a l] eqn:Hf; [done|].
      exfalso. apply Hnot. exists a.
      assert (a ∈ a :: l) as Hin by left. rewrite <- Hf in Hin.
      by apply list_elem_of_filter in Hin as [-> ?].
  - unfold sorted_items.
    rewrite (foldr_add_Permutation _ (map_to_list
                                      (agent_assignment_counts assignments)).*2)
      by (by rewrite sort_by_Permutation).
    unfold agent_assignment_counts.
    rewrite counts_total_acc, map_to_list_empty. simpl. lia.
Qed.

Lemma item_lt_false x y :
  item_lt x y = false ↔ String.le y.1 x.1 ∧ (x.1 ≠ y.1 ∨ y.2 ≤ x.2).
Proof.
  unfold item_lt, String.le. rewrite ltb_leb.
  rewrite orb_false_iff, andb_false_iff, String.eqb_neq, Z.ltb_ge.
  destruct (String.leb y.1 x.1); simpl; intuition lia.
Qed.

Lemma item_lt_asym x y : item_lt x y = true → item_lt y x = false.
Proof.
  intros Hxy. apply item_lt_false. unfold item_lt in Hxy.
  apply orb_true_iff in Hxy as [Hlt|[Heq Hlt]%andb_true_iff].
  - rewrite ltb_leb, negb_true_iff in Hlt. split.
    + destruct (total String.le x.1 y.1) as [?|Hyx]; [done|].
      apply Is_true_true in Hyx. unfold String.le in *. congruence.
    + left. intros Heq. rewrite Heq in Hlt.
      assert (String.le x.1 x.1) as Hrefl by done.
      apply Is_true_true in Hrefl. unfold String.le in *. congruence.
  - apply String.eqb_eq in Heq. rewrite Heq. split; [done|]. right. lia.
Qed.

Lemma item_lt_negtrans x y z :
  item_lt y x = false → item_lt z y = false → item_lt z x = false.
Proof.
  rewrite !item_lt_false. intros [Hxy Hxy'] [Hyz Hyz']. split; [by etrans|].
  destruct (decide (z.1 = x.1)) as [Hzx|]; [|by left]. right.
  assert (x.1 = y.1) as Hy.
  { apply (anti_symm String.le); [done|]. by rewrite <- Hzx. }
  destruct Hxy' as [Hne|?]; [by destruct Hne|].
  destruct Hyz' as [Hne|?]; [destruct Hne; congruence|]. lia.
Qed.

(** X13: for the assignments that [assign_tickets] returned, the summary
    of [main] never fails to find an agent's name (no [StopIteration]); it
    prints one line per agent id that got a ticket, in strictly ascending
    order of the ids, each with the name of the first agent of the roster
    that has the id and the number, at least 1, of its assignments. *)
Theorem distribution_lines_spec `{SetOrder} `{ListSort} (agents_data : list Agent)
    (tickets_data : list Ticket) (out : list Assignment.t) :
  assign_tickets agents_data tickets_data = Ok out →
  let items := sorted_items (agent_assignment_counts out) in
  (∃ lines,
     distribution_lines agents_data out = Some lines
     ∧ Forall2 (λ (item : string * Z) line,
                  ∃ agent,
                    head (filter (λ a, agent_id a = item.1) agents_data)
                      = Some agent
                    ∧ line = "  " +:+ item.1 +:+ " (" +:+ name agent +:+ "): "
                             +:+ pretty item.2 +:+ " tickets")
         items lines)
  ∧ (∀ id count, (id, count) ∈ items
                 ↔ count = assigned_count id out ∧ 1 ≤ count)
  ∧ (∀ i j x y, (i < j)%nat → items !! i = Some x → items !! j = Some y →
       String.ltb x.1 y.1 = true).
Proof.
  intros Hout items.
  assert (∀ id count, (id, count) ∈ items
                      ↔ count = assigned_count id out ∧ 1 ≤ count) as Hitems.
  { intros id count. subst items. unfold sorted_items.
    rewrite sort_by_Permutation, elem_of_map_to_list.
    unfold agent_assignment_counts. rewrite counts_acc, lookup_empty.
    pose proof (assigned_count_nonneg id out).
    case_decide; split; [done | lia | intros [= <-]; lia | intros [-> _]; done]. }
  split; [|split; [done|]].
  - assert (∀ item, item ∈ items →
              is_Some (head (filter (λ a, agent_id a = item.1) agents_data)))
      as Hnames.
    { intros [id count] [-> Hpos]%Hitems. simpl.
      destruct (filter (λ a, Assignment.assigned_agent_id a = id) out)
        as [|asg l] eqn:Hf; [unfold assigned_count in Hpos; rewrite Hf in Hpos;
                             simpl in Hpos; lia|].
      assert (asg ∈ asg :: l) as Hin by left. rewrite <- Hf in Hin.
      apply list_elem_of_filter in Hin as [Hid Hin].
      unfold assign_tickets in Hout.
      destruct (run_assignment agents_data tickets_data)
        as [[loads out']|] eqn:Hrun; [|done].
      cbn in Hout. injection Hout as ->.
      destruct (run_assignment_agents _ _ _ _ _ Hrun Hin) as (a & Ha & Haid).
      assert (a ∈ filter (λ b, agent_id b = id) agents_data) as Hfa.
      { apply list_elem_of_filter. split; [congruence | done]. }
      destruct (filter (λ b, agent_id b = id) agents_data);
        [by apply elem_of_nil in Hfa | by eexists]. }
    assert (is_Some (distribution_lines agents_data out)) as [lines Hlines].
    { unfold distribution_lines. apply mapM_is_Some. fold items.
      apply Forall_forall. intros item Hitem.
      destruct (Hnames item Hitem) as [agent Hagent]. simpl.
      unfold next_agent_name. rewrite Hagent. by eexists. }
    exists lines. split; [done|].
    unfold distribution_lines in Hlines. apply mapM_Some in Hlines.
    fold items in Hlines.
    eapply Forall2_impl; [exact Hlines|]. simpl. intros item line Hline.
    unfold next_agent_name in Hline.
    destruct (head (filter _ agents_data)) as [agent|]; [|done].
    simpl in Hline. injection Hline as <-. by exists agent.
  - intros i j x y Hij Hx Hy. subst items. unfold sorted_items in *.
    pose proof (StronglySorted_lookup _ _ i j x y
                  (sort_by_sorted item_lt item_lt_asym item_lt_negtrans _)
                  Hij Hx Hy) as Hxy.
    simpl in Hxy. apply item_lt_false in Hxy as [Hle _].
    rewrite ltb_leb, negb_true_iff.
    destruct (String.leb y.1 x.1) eqn:Hyx; [|done]. exfalso.
    assert (x.1 = y.1) as Hkey.
    { apply (anti_symm String.le); [done|]. by apply Is_true_true. }
    assert (i = j); [|lia].
    eapply (NoDup_lookup ((sort_by item_lt
                             (map_to_list (agent_assignment_counts out))).*1)).
    + rewrite sort_by_Permutation. apply NoDup_fst_map_to_list.
    + by rewrite list_lookup_fmap, Hx.
    + by rewrite list_lookup_fmap, Hy, Hkey.
Qed.

Lemma distribution_lines_spec_witness :
  @assign_tickets first_seen_order insertion_sort demo_agents demo_tickets = Ok demo_out
  ∧ ∃ lines,
      distribution_lines demo_agents demo_out = Some lines
      ∧ Forall2 (λ (item : string * Z) line,
                   ∃ agent,
                     head (filter (λ a, agent_id a = item.1) demo_agents)
                       = Some agent
                     ∧ line = "  " +:+ item.1 +:+ " (" +:+ name agent +:+ "): "
                              +:+ pretty item.2 +:+ " tickets")
          (sorted_items (agent_assignment_counts demo_out)) lines.
Proof.
  split; [vm_compute; reflexivity|].
  refine (proj1 (@distribution_lines_spec first_seen_order insertion_sort demo_agents
                   demo_tickets demo_out _)).
  vm_compute. reflexivity.
Defined.

(** The sorted items do not depend on the order in which the dict yields
    its items. *)
Lemma sorted_items_any_order (counts : gmap string Z) items :
  items ≡ₚ map_to_list counts → sort_by item_lt items = sorted_items counts.
Proof.
  intros Hperm. unfold sorted_items.
  apply (StronglySorted_unique_strong (λ a b, item_lt b a = false)).
  - intros x y Hx Hy Hxy Hyx.
    rewrite sort_by_Permutation in Hx, Hy. rewrite Hperm in Hx.
    apply item_lt_false in Hxy as [Hle Hxy], Hyx as [Hle' Hyx].
    assert (x.1 = y.1) as Hkey by (by apply (anti_symm String.le)).
    destruct x as [id c], y as [id' c']. simpl in *. subst id'.
    apply elem_of_map_to_list in Hx, Hy. congruence.
  - apply sort_by_sorted; [apply item_lt_asym | apply item_lt_negtrans].
  - apply sort_by_sorted; [apply item_lt_asym | apply item_lt_negtrans].
  - by rewrite !sort_by_Permutation.
Qed.
